(** * Real-time position server: a shallow embedding of [backend/main.go]

    The Go program keeps one integer (the car position) in Redis under the
    key [carPosition], lets HTTP clients add a delta to it, and pushes every
    new value to the WebSocket connections registered in the global map
    [wsClients], which is guarded by [wsMutex].

    The embedding below follows [main.go] function by function.  Handlers are
    computations in a small monad that threads the process state ([World]),
    reads the behaviour of the outside world (Redis faults, socket faults,
    the order in which the runtime ranges over a map) from an [Env], and
    records every external call in an event log. *)

From Stdlib Require Import ZArith Lia.
From stdpp Require Import base option list gmap strings.

Local Open Scope Z_scope.
#[local] Set Warnings "-clear-no-such-hyp".

(** ** Integers

    [DeltaRequest.Delta] and [PositionResponse.Position] are Go [int]s, the
    Redis client returns [int64]; on the 64-bit targets both are 64-bit two's
    complement.  They are modelled as [Z] and the conversions [int64(x)] and
    [int(x)] as wrap-around to 64 bits. *)

Definition in_int64 (z : Z) : Prop := - 2 ^ 63 <= z < 2 ^ 63.
Definition in_int64b (z : Z) : bool := (- 2 ^ 63 <=? z) && (z <? 2 ^ 63).
Definition wrap64 (z : Z) : Z := (z + 2 ^ 63) mod 2 ^ 64 - 2 ^ 63.
Definition int64_of_int (x : Z) : Z := wrap64 x.
Definition int_of_int64 (x : Z) : Z := wrap64 x.

(** ** Data of the program *)

(** A [*websocket.Conn]: only its identity matters. *)
Abbreviation Conn := positive (only parsing).

Record DeltaRequest := { Delta : Z }.
Record PositionResponse := { Position : Z }.

(** Go [error] values met by the program: the sentinel [redis.Nil] and
    errors that only carry a message. *)
Inductive error := redis_Nil | Err (msg : string).

Definition Error (e : error) : string :=
  match e with
  | redis_Nil => "redis: nil"
  | Err msg => msg
  end.

(** The request body of [POST /position], identified with what
    [json.NewDecoder(r.Body).Decode(&req)] makes of it. *)
Inductive Body := Malformed (err : string) | Payload (req : DeltaRequest).

Definition json_Decode (b : Body) : error + DeltaRequest :=
  match b with
  | Malformed err => inl (Err err)
  | Payload req => inr req
  end.

(** What a handler leaves in its [http.ResponseWriter]. *)
Inductive ResponseBody := ErrorText (msg : string) | Json (p : PositionResponse).
Record Response := { status : Z; body : ResponseBody }.

Definition StatusOK : Z := 200.
Definition StatusBadRequest : Z := 400.
Definition StatusInternalServerError : Z := 500.

(** State of the goroutine started by [go handleWSRead(conn)]. *)
Inductive LoopState := Running | Terminated.

(** Result of one [conn.NextReader()] call as decided by the peer. *)
Inductive ReadResult := Frame | ReadError.

(** ** External calls, as events *)

Inductive Event :=
| EvGet (key : string) (r : error + Z)
| EvIncrBy (key : string) (delta : Z) (r : error + Z)
| EvSet (key : string) (value : Z) (r : option error)
| EvLock
| EvUnlock
| EvWrite (c : Conn) (msg : PositionResponse) (ok : bool)
| EvClose (c : Conn)
| EvRead (c : Conn) (r : ReadResult)
| EvGoSend (c : Conn)
| EvGoRead (c : Conn).

(** ** Process state and environment *)

Record World := mkWorld {
  rdb : gmap string Z;          (* the Redis database, integer values *)
  wsClients : gmap Conn bool;   (* var wsClients = make(map[*websocket.Conn]bool) *)
  wsMutex : bool;               (* var wsMutex sync.Mutex; true = held *)
  closed : gset Conn;           (* connections on which Close() was called *)
  readLoop : gmap Conn LoopState (* handleWSRead goroutines *)
}.

Definition set_rdb (f : gmap string Z → gmap string Z) (w : World) : World :=
  mkWorld (f (rdb w)) (wsClients w) (wsMutex w) (closed w) (readLoop w).
Definition set_wsClients (f : gmap Conn bool → gmap Conn bool) (w : World) : World :=
  mkWorld (rdb w) (f (wsClients w)) (wsMutex w) (closed w) (readLoop w).
Definition set_wsMutex (b : bool) (w : World) : World :=
  mkWorld (rdb w) (wsClients w) b (closed w) (readLoop w).
Definition set_closed (f : gset Conn → gset Conn) (w : World) : World :=
  mkWorld (rdb w) (wsClients w) (wsMutex w) (f (closed w)) (readLoop w).
Definition set_readLoop (f : gmap Conn LoopState → gmap Conn LoopState) (w : World) : World :=
  mkWorld (rdb w) (wsClients w) (wsMutex w) (closed w) (f (readLoop w)).

(** The state at program start: empty database view, no client. *)
Definition init : World := mkWorld ∅ ∅ false ∅ ∅.

(** What the outside world does during one handler run: whether the Redis
    calls fail in transport (a call that fails this way does not reach the
    server, the database stays as it was), which sockets refuse a write, and
    in which order [range] visits the keys of a map (Go leaves it
    unspecified; any permutation of the keys is allowed). *)
Record Env := mkEnv {
  incrFault : option string;
  setFault : option string;
  getFault : option string;
  writeFault : Conn → bool;
  rangeOrder : gmap Conn bool → list Conn;
  rangeOrder_perm : ∀ m, rangeOrder m ≡ₚ (map_to_list m).*1
}.

(** ** The monad *)

(** A run either returns, or never does: parked on a held mutex, on a read
    that has not failed yet or on a write that blocks, stopped by a runtime
    fatal error, which ends the process, or unwound by a panic, which runs
    the deferred calls on its way. *)
Inductive Res (A : Type) :=
| Done (a : A)
| Parked
| Fatal (msg : string)
| Panic (msg : string).
Arguments Done {A} a.
Arguments Parked {A}.
Arguments Fatal {A} msg.
Arguments Panic {A} msg.

Record Out (A : Type) := mkOut { res : Res A; post : World; log : list Event }.
Arguments mkOut {A} res post log.
Arguments res {A} o.
Arguments post {A} o.
Arguments log {A} o.

Definition M (A : Type) : Type := Env → World → Out A.

Definition ret {A} (a : A) : M A := λ _ w, mkOut (Done a) w [].

Definition bind {A B} (m : M A) (f : A → M B) : M B := λ env w,
  let o := m env w in
  match res o with
  | Done a =>
      let o' := f a env (post o) in
      mkOut (res o') (post o') (log o ++ log o')
  | Parked => mkOut Parked (post o) (log o)
  | Fatal msg => mkOut (Fatal msg) (post o) (log o)
  | Panic msg => mkOut (Panic msg) (post o) (log o)
  end.

#[global] Instance M_ret : MRet M := @ret.
#[global] Instance M_bind : MBind M := λ A B f m, bind m f.

(** [for _, x := range l { body }] over a list. *)
Fixpoint forEach {A} (l : list A) (body : A → M unit) : M unit :=
  match l with
  | [] => ret tt
  | x :: l' => body x;; forEach l' body
  end.

(** ** Redis client calls *)

(** [rdb.Get(ctx, key).Int()] *)
Definition rdb_Get_Int (key : string) : M (error + Z) := λ env w,
  let r : error + Z :=
    match getFault env with
    | Some msg => inl (Err msg)
    | None =>
        match rdb w !! key with
        | None => inl redis_Nil
        | Some v =>
            if in_int64b v then inr v
            else inl (Err "strconv.Atoi: value out of range")
        end
    end in
  mkOut (Done r) w [EvGet key r].

(** [rdb.IncrBy(ctx, key, delta).Result()]: INCRBY reads an absent key as 0
    and refuses a value or a sum that is not a 64-bit signed integer. *)
Definition rdb_IncrBy (key : string) (delta : Z) : M (error + Z) := λ env w,
  match incrFault env with
  | Some msg => mkOut (Done (inl (Err msg))) w [EvIncrBy key delta (inl (Err msg))]
  | None =>
      let cur := default 0 (rdb w !! key) in
      if negb (in_int64b cur) then
        let e := Err "ERR value is not an integer or out of range" in
        mkOut (Done (inl e)) w [EvIncrBy key delta (inl e)]
      else if negb (in_int64b (cur + delta)) then
        let e := Err "ERR increment or decrement would overflow" in
        mkOut (Done (inl e)) w [EvIncrBy key delta (inl e)]
      else
        mkOut (Done (inr (cur + delta)))
              (set_rdb (insert key (cur + delta)) w)
              [EvIncrBy key delta (inr (cur + delta))]
  end.

(** [rdb.Set(ctx, key, value, 0).Err()] *)
Definition rdb_Set (key : string) (value : Z) : M (option error) := λ env w,
  match setFault env with
  | Some msg => mkOut (Done (Some (Err msg))) w [EvSet key value (Some (Err msg))]
  | None => mkOut (Done None) (set_rdb (insert key value) w) [EvSet key value None]
  end.

(** ** Mutex, sockets and the registry map *)

(** [wsMutex.Lock()] *)
Definition Lock : M unit := λ _ w,
  if wsMutex w then mkOut Parked w []
  else mkOut (Done tt) (set_wsMutex true w) [EvLock].

(** [wsMutex.Unlock()] *)
Definition Unlock : M unit := λ _ w,
  if wsMutex w then mkOut (Done tt) (set_wsMutex false w) [EvUnlock]
  else mkOut (Fatal "sync: unlock of unlocked mutex") w [].

(** Whether [conn.WriteMessage] returns an error: the socket refuses the
    write, or the connection was closed on this side. *)
Definition writeFails (env : Env) (w : World) (c : Conn) : bool :=
  writeFault env c || bool_decide (c ∈ closed w).

(** [conn.WriteMessage(websocket.TextMessage, msg)] when the call returns;
    [true] is [err == nil].  The calls that do not return are added by
    [WriteMessage_full] below. *)
Definition WriteMessage (c : Conn) (msg : PositionResponse) : M bool := λ env w,
  let ok := negb (writeFails env w c) in
  mkOut (Done ok) w [EvWrite c msg ok].

(** [conn.Close()] *)
Definition Close (c : Conn) : M unit := λ _ w,
  mkOut (Done tt) (set_closed (λ s, {[c]} ∪ s) w) [EvClose c].

(** [wsClients[conn] = true] *)
Definition wsClients_store (c : Conn) : M unit := λ _ w,
  mkOut (Done tt) (set_wsClients (insert c true) w) [].

(** [delete(wsClients, conn)] *)
Definition wsClients_delete (c : Conn) : M unit := λ _ w,
  mkOut (Done tt) (set_wsClients (delete c) w) [].

(** The keys of [wsClients] in the order this [range] statement visits them,
    and the test that an entry was not deleted before the loop reached it. *)
Definition wsClients_range : M (list Conn) := λ env w,
  mkOut (Done (rangeOrder env (wsClients w))) w [].
Definition wsClients_has (c : Conn) : M bool := λ _ w,
  mkOut (Done (bool_decide (is_Some (wsClients w !! c)))) w [].

(** ** HTTP response helpers *)

(** [http.Error(w, msg, code)] on a fresh writer. *)
Definition http_Error (msg : string) (code : Z) : M Response :=
  ret {| status := code; body := ErrorText msg |}.

Definition newline : string := String (Ascii.ascii_of_nat 10) EmptyString.

(** [http.Error(w, msg, code)] on a writer through which [http.Error(w,
    text, sent)] has answered already: the status line is out, so the
    [WriteHeader(code)] of the second call is ignored, and its text is
    written after the first one. *)
Definition http_Error_again (sent : Z) (text : string) (msg : string) (code : Z)
    : M Response :=
  ret {| status := sent; body := ErrorText (text +:+ newline +:+ msg) |}.

(** [json.NewEncoder(w).Encode(p)] on a fresh writer: status 200. *)
Definition json_Encode (p : PositionResponse) : M Response :=
  ret {| status := StatusOK; body := Json p |}.

(** ** The handlers of [main.go] *)

(** [getPosition]: [GET /position]. *)
Definition getPosition : M Response :=
  r ← rdb_Get_Int "carPosition";
  match r with
  | inl redis_Nil => json_Encode {| Position := 0 |}
  | inl err => http_Error (Error err) StatusInternalServerError
  | inr position => json_Encode {| Position := position |}
  end.

(** The body of the [range] loop in [broadcastPosition]: an entry deleted
    before the loop reaches it is not visited. *)
Definition sendOrPrune (msg : PositionResponse) (clientConn : Conn) : M unit :=
  present ← wsClients_has clientConn;
  if present : bool then
    ok ← WriteMessage clientConn msg;
    if ok : bool then mret tt
    else Close clientConn;; wsClients_delete clientConn
  else mret tt.

(** [broadcastPosition] when every write returns: the mutex is taken on
    entry and released by the deferred [Unlock] on return; the loop ranges
    over [wsClients] itself.  [broadcastPosition_full] below is the pass
    with writes that panic or block. *)
Definition broadcastPosition (pos : Z) : M unit :=
  let msg := {| Position := pos |} in
  Lock;;
  keys ← wsClients_range;
  forEach keys (sendOrPrune msg);;
  Unlock.

(** [updatePosition]: [POST /position]. *)
Definition updatePosition (b : Body) : M Response :=
  match json_Decode b with
  | inl err => http_Error (Error err) StatusBadRequest
  | inr req =>
      r ← rdb_IncrBy "carPosition" (int64_of_int (Delta req));
      match r with
      | inl err => http_Error (Error err) StatusInternalServerError
      | inr newPos =>
          newPos ← (if newPos <? 0
                    then rdb_Set "carPosition" 0;; mret 0
                    else mret newPos);
          broadcastPosition (int_of_int64 newPos);;
          json_Encode {| Position := int_of_int64 newPos |}
      end
  end.

(** [go handleWSRead(conn)] and [go sendCurrentPosition(conn)]: the
    goroutines are started, their bodies run as steps of their own. *)
Definition go_handleWSRead (c : Conn) : M unit := λ _ w,
  mkOut (Done tt) (set_readLoop (insert c Running) w) [EvGoRead c].
Definition go_sendCurrentPosition (c : Conn) : M unit := λ _ w,
  mkOut (Done tt) w [EvGoSend c].

(** What [upgrader.Upgrade] has done when it returns an error.  A request
    it refuses it has answered itself, with [http.Error(w, text, code)]
    (400 and its status text for a request that is no WebSocket handshake).
    A failure after it took the connection over leaves a closed connection,
    on which nothing can be answered any more. *)
Inductive UpgradeFailure :=
| Refused (code : Z) (text : string) (err : error)
| Broken (err : error).

(** [wsHandler]: [upgrade] is what [upgrader.Upgrade(w, r, nil)] did and
    returned.  The [http.Error] of the handler comes after the answer of
    [Upgrade], or goes to a connection that is gone.  After a successful
    upgrade the handler writes no HTTP response. *)
Definition wsHandler (upgrade : UpgradeFailure + Conn) : M (option Response) :=
  match upgrade with
  | inl (Refused code text err) =>
      resp ← http_Error_again code text (Error err) StatusInternalServerError;
      mret (Some resp)
  | inl (Broken err) => mret None
  | inr conn =>
      Lock;;
      wsClients_store conn;;
      Unlock;;
      go_sendCurrentPosition conn;;
      go_handleWSRead conn;;
      mret None
  end.

(** [sendCurrentPosition] *)
Definition sendCurrentPosition (conn : Conn) : M unit :=
  r ← rdb_Get_Int "carPosition";
  match r with
  | inl redis_Nil => WriteMessage conn {| Position := 0 |};; mret tt
  | inl _ => mret tt
  | inr position => WriteMessage conn {| Position := position |};; mret tt
  end.

(** [conn.NextReader()]: fails at once on a connection closed on this
    side, otherwise waits for what the peer does ([None]: nothing yet).
    [true] is [err == nil]. *)
Definition NextReader (c : Conn) (incoming : option ReadResult) : M bool := λ _ w,
  if bool_decide (c ∈ closed w) then mkOut (Done false) w [EvRead c ReadError]
  else match incoming with
       | None => mkOut Parked w []
       | Some Frame => mkOut (Done true) w [EvRead c Frame]
       | Some ReadError => mkOut (Done false) w [EvRead c ReadError]
       end.

(** The [for] loop of [handleWSRead] against the reads the peer causes. *)
Fixpoint readUntilError (conn : Conn) (incoming : list ReadResult) : M unit :=
  match incoming with
  | [] => NextReader conn None;; mret tt
  | r :: rest =>
      ok ← NextReader conn (Some r);
      if ok : bool then readUntilError conn rest else mret tt
  end.

Definition goroutine_exit (c : Conn) : M unit := λ _ w,
  mkOut (Done tt) (set_readLoop (insert c Terminated) w) [].

(** [handleWSRead]: the deferred function runs when the loop is left. *)
Definition handleWSRead (conn : Conn) (incoming : list ReadResult) : M unit :=
  readUntilError conn incoming;;
  Lock;;
  wsClients_delete conn;;
  Unlock;;
  Close conn;;
  goroutine_exit conn.

(** ** Writes that do not return

    A call of [WriteMessage] has two more ways to end than the one modelled
    by [WriteMessage] above.  gorilla/websocket supports one writer at a
    time on a connection and panics in a writer that meets another write in
    progress; [sendCurrentPosition] writes without holding [wsMutex], so a
    pass of [broadcastPosition] can meet its write.  And the program sets no
    write deadline, so a write to a peer that has stopped reading blocks.
    [fate c] says how the next write to [c] ends. *)
Inductive WriteEnd := Returns | Panics | Blocks.

(** [conn.WriteMessage(websocket.TextMessage, msg)] with its three ends. *)
Definition WriteMessage_full (fate : Conn → WriteEnd) (c : Conn)
    (msg : PositionResponse) : M bool := λ env w,
  match fate c with
  | Returns => WriteMessage c msg env w
  | Panics => mkOut (Panic "concurrent write to websocket connection") w []
  | Blocks => mkOut Parked w []
  end.

(** [defer cleanup()] around [body]: the deferred call runs when [body]
    returns and when it panics, and the panic goes on after it; it does not
    run while [body] is blocked or after a fatal error. *)
Definition deferred {A} (cleanup : M unit) (body : M A) : M A := λ env w,
  let o := body env w in
  match res o with
  | Parked | Fatal _ => o
  | r =>
      let o' := cleanup env (post o) in
      mkOut (match res o' with
             | Done _ => r
             | Parked => Parked
             | Fatal msg => Fatal msg
             | Panic msg => Panic msg
             end)
            (post o') (log o ++ log o')
  end.

(** The loop body and [broadcastPosition] with such writes. *)
Definition sendOrPrune_full (fate : Conn → WriteEnd) (msg : PositionResponse)
    (clientConn : Conn) : M unit :=
  present ← wsClients_has clientConn;
  if present : bool then
    ok ← WriteMessage_full fate clientConn msg;
    if ok : bool then mret tt
    else Close clientConn;; wsClients_delete clientConn
  else mret tt.

Definition broadcastPosition_full (fate : Conn → WriteEnd) (pos : Z) : M unit :=
  let msg := {| Position := pos |} in
  Lock;;
  deferred Unlock
    (keys ← wsClients_range;
     forEach keys (sendOrPrune_full fate msg)).

(** [updatePosition] with such a pass. *)
Definition updatePosition_full (fate : Conn → WriteEnd) (b : Body) : M Response :=
  match json_Decode b with
  | inl err => http_Error (Error err) StatusBadRequest
  | inr req =>
      r ← rdb_IncrBy "carPosition" (int64_of_int (Delta req));
      match r with
      | inl err => http_Error (Error err) StatusInternalServerError
      | inr newPos =>
          newPos ← (if newPos <? 0
                    then rdb_Set "carPosition" 0;; mret 0
                    else mret newPos);
          broadcastPosition_full fate (int_of_int64 newPos);;
          json_Encode {| Position := int_of_int64 newPos |}
      end
  end.

(** Every write returns. *)
Definition allReturn : Conn → WriteEnd := λ _, Returns.

(** The write to [c] ends as [e], the others return. *)
Definition onlyAt (c : Conn) (e : WriteEnd) : Conn → WriteEnd :=
  λ c', if bool_decide (c' = c) then e else Returns.

(** An environment in which nothing fails and [range] follows the order of
    [map_to_list]. *)
Definition calm : Env :=
  mkEnv None None None (λ _, false) (λ m, (map_to_list m).*1) (λ m, reflexivity _).

Definition withWriteFault (f : Conn → bool) (env : Env) : Env :=
  mkEnv (incrFault env) (setFault env) (getFault env) f
        (rangeOrder env) (rangeOrder_perm env).
Definition withSetFault (msg : string) (env : Env) : Env :=
  mkEnv (incrFault env) (Some msg) (getFault env) (writeFault env)
        (rangeOrder env) (rangeOrder_perm env).
Definition withIncrFault (msg : string) (env : Env) : Env :=
  mkEnv (Some msg) (setFault env) (getFault env) (writeFault env)
        (rangeOrder env) (rangeOrder_perm env).

(** ** The server as a transition system

    The handlers and goroutines run concurrently; every access to
    [wsClients] sits in a critical section of [wsMutex], so for the registry
    an execution is an interleaving of the steps below, each taken as a
    whole: a request served by a handler, or a goroutine run to its end.
    The steps are the runs in which every socket write returns;
    [broadcastPosition_full] and [updatePosition_full] are the runs that a
    write may stop. *)

Inductive Action :=
| GET_position (env : Env)
| POST_position (b : Body) (env : Env)
| WS_connect (upgrade : UpgradeFailure + Conn) (env : Env)
| Go_sendCurrentPosition (c : Conn) (env : Env)
| Go_handleWSRead (c : Conn) (incoming : list ReadResult) (env : Env).

Definition exec (a : Action) (w : World) : Out (option Response) :=
  match a with
  | GET_position env => (resp ← getPosition; mret (Some resp)) env w
  | POST_position b env => (resp ← updatePosition b; mret (Some resp)) env w
  | WS_connect upgrade env => wsHandler upgrade env w
  | Go_sendCurrentPosition c env => (sendCurrentPosition c;; mret None) env w
  | Go_handleWSRead c incoming env => (handleWSRead c incoming;; mret None) env w
  end.

(** A step can be taken when its connection exists in the right state: an
    upgrade yields a connection object never seen before, and a goroutine
    runs only after [wsHandler] started it and before it ended. *)
Definition enabled (a : Action) (w : World) : Prop :=
  match a with
  | WS_connect (inr c) _ => readLoop w !! c = None
  | Go_sendCurrentPosition c _ => is_Some (readLoop w !! c)
  | Go_handleWSRead c _ _ => readLoop w !! c = Some Running
  | _ => True
  end.

Inductive reachable : World → Prop :=
| reachable_init : reachable init
| reachable_step a w : reachable w → enabled a w → reachable (post (exec a w)).

(** Outputs and final state of a schedule run from [w]. *)
Fixpoint outs (acts : list Action) (w : World) : list (Out (option Response)) :=
  match acts with
  | [] => []
  | a :: rest => let o := exec a w in o :: outs rest (post o)
  end.

Definition endState (acts : list Action) (w : World) : World :=
  foldl (λ w a, post (exec a w)) w acts.

(** The position a client would read: an absent key reads as 0. *)
Definition position (w : World) : Z := default 0 (rdb w !! "carPosition").

(** [POST /position] with body [{delta: d}]. *)
Definition submit (s : Z * Env) : Action :=
  POST_position (Payload {| Delta := s.1 |}) s.2.

(** ** Vocabulary of the properties *)

(** The registry invariant: every registered connection has its read loop
    running. *)
Definition registered_are_reading (w : World) : Prop :=
  ∀ c, is_Some (wsClients w !! c) → readLoop w !! c = Some Running.

(** Registered exactly when the read loop has not ended and the server has
    not closed the connection. *)
Definition registered_iff_reading_open (w : World) : Prop :=
  ∀ c, is_Some (wsClients w !! c) ↔ readLoop w !! c = Some Running ∧ c ∉ closed w.

(** The claim of the specification: registered exactly when the read loop
    has not ended, for every connection that was ever upgraded. *)
Definition registered_iff_reading (w : World) : Prop :=
  ∀ c, is_Some (readLoop w !! c) →
       (is_Some (wsClients w !! c) ↔ readLoop w !! c = Some Running).

(** The events one subscriber contributes to a fan-out pass. *)
Definition fanout_events (env : Env) (w : World) (msg : PositionResponse)
    (c : Conn) : list Event :=
  if writeFails env w c then [EvWrite c msg false; EvClose c]
  else [EvWrite c msg true].

(** The connections a pass reaches before a write that does not return,
    and the connection whose write it is. *)
Fixpoint served (fate : Conn → WriteEnd) (l : list Conn) : list Conn :=
  match l with
  | [] => []
  | c :: rest =>
      match fate c with
      | Returns => c :: served fate rest
      | _ => []
      end
  end.

Fixpoint stopsAt (fate : Conn → WriteEnd) (l : list Conn) : option Conn :=
  match l with
  | [] => None
  | c :: rest =>
      match fate c with
      | Returns => stopsAt fate rest
      | _ => Some c
      end
  end.

(** How a pass over [l] ends, and whether its deferred [Unlock] runs. *)
Definition passResult (fate : Conn → WriteEnd) (l : list Conn) : Res unit :=
  match stopsAt fate l with
  | None => Done tt
  | Some c =>
      match fate c with
      | Blocks => Parked
      | _ => Panic "concurrent write to websocket connection"
      end
  end.

Definition isParked {A} (r : Res A) : bool :=
  match r with
  | Parked => true
  | _ => false
  end.

(** *** Lock discipline of an event log *)

(** No socket write happens while the mutex is held ([held] is the state of
    the mutex before the first event). *)
Fixpoint writesOutsideLock (held : bool) (evs : list Event) : bool :=
  match evs with
  | [] => true
  | EvLock :: rest => writesOutsideLock true rest
  | EvUnlock :: rest => writesOutsideLock false rest
  | EvWrite _ _ _ :: rest => negb held && writesOutsideLock held rest
  | _ :: rest => writesOutsideLock held rest
  end.

(** The mutex is taken when free and released when held, and every socket
    write and every [Close] happens while it is held. *)
Fixpoint ioUnderLock (held : bool) (evs : list Event) : bool :=
  match evs with
  | [] => true
  | EvLock :: rest => negb held && ioUnderLock true rest
  | EvUnlock :: rest => held && ioUnderLock false rest
  | EvWrite _ _ _ :: rest => held && ioUnderLock held rest
  | EvClose _ :: rest => held && ioUnderLock held rest
  | _ :: rest => ioUnderLock held rest
  end.

Definition isLockEvent (e : Event) : bool :=
  match e with
  | EvLock | EvUnlock => true
  | _ => false
  end.

(** *** Observations on a log *)

(** A [Set] that returned an error. *)
Definition isFailedSet (e : Event) : bool :=
  match e with
  | EvSet _ _ (Some _) => true
  | _ => false
  end.

(** An increment that returned a result, and not a negative one. *)
Definition incrReturnedNonneg (e : Event) : bool :=
  match e with
  | EvIncrBy _ _ (inr v) => 0 <=? v
  | EvIncrBy _ _ (inl _) => false
  | _ => true
  end.

(** An increment that returned a result. *)
Definition incrReturned (e : Event) : bool :=
  match e with
  | EvIncrBy _ _ (inl _) => false
  | _ => true
  end.

(** All events of a run, in order. *)
Definition events (os : list (Out (option Response))) : list Event :=
  flat_map log os.

Definition sumZ (ds : list Z) : Z := foldr Z.add 0 ds.

(** ** Concrete states and environments *)

(** Two subscribers connected, nothing stored yet. *)
Definition twoClients : World :=
  endState [WS_connect (inr 1%positive) calm; WS_connect (inr 2%positive) calm] init.

(** The same after [POST {delta: 50}]. *)
Definition at50 : World :=
  endState [POST_position (Payload {| Delta := 50 |}) calm] twoClients.

(** Socket 1 refuses writes. *)
Definition socket1Broken : Env :=
  withWriteFault (λ c, bool_decide (c = 1%positive)) calm.

(** * Further definitions *)

(** ** Relations between the state before and after a run *)

(** [m] relates every state it starts from to the state it leaves. *)
Definition keeps {A} (R : World → World → Prop) (m : M A) : Prop :=
  ∀ env w, R w (post (m env w)).

(** The database is untouched. *)
Definition same_rdb (w w' : World) : Prop := rdb w' = rdb w.

(** Every key other than [carPosition] is untouched. *)
Definition same_other_keys (w w' : World) : Prop :=
  ∀ key, key ≠ "carPosition" → rdb w' !! key = rdb w !! key.

(** No connection was added to the registry. *)
Definition no_new_clients (w w' : World) : Prop :=
  ∀ c, is_Some (wsClients w' !! c) → is_Some (wsClients w !! c).

(** The registry is untouched. *)
Definition same_wsClients (w w' : World) : Prop := wsClients w' = wsClients w.

#[local] Instance same_rdb_preorder : PreOrder same_rdb.
Proof.
  split; [done|]. intros x y z Hxy Hyz. unfold same_rdb in *. congruence.
Qed.

#[local] Instance same_other_keys_preorder : PreOrder same_other_keys.
Proof.
  split; [by intros x key Hk|]. intros x y z Hxy Hyz key Hk.
  rewrite (Hyz key Hk). by apply Hxy.
Qed.

#[local] Instance no_new_clients_preorder : PreOrder no_new_clients.
Proof.
  split; [by intros x c Hc|]. intros x y z Hxy Hyz c Hc. by apply Hxy, Hyz.
Qed.

#[local] Instance same_wsClients_preorder : PreOrder same_wsClients.
Proof.
  split; [done|]. intros x y z Hxy Hyz. unfold same_wsClients in *. congruence.
Qed.

(** The socket writes to one connection in a log. *)
Definition isWriteTo (c : Conn) (e : Event) : bool :=
  match e with
  | EvWrite c' _ _ => bool_decide (c' = c)
  | _ => false
  end.

Definition writesTo (c : Conn) (evs : list Event) : nat :=
  length (List.filter (isWriteTo c) evs).

(** Whether a step is [go sendCurrentPosition(c)] or the upgrade that
    creates connection [c]. *)
Definition introduces (c : Conn) (a : Action) : bool :=
  match a with
  | WS_connect (inr c') _ => bool_decide (c' = c)
  | Go_sendCurrentPosition c' _ => bool_decide (c' = c)
  | _ => false
  end.

(** A closed connection is out of the registry and had a read loop; every
    stored value is a 64-bit integer. *)
Definition tidy (w : World) : Prop :=
  (∀ c, c ∈ closed w → wsClients w !! c = None ∧ is_Some (readLoop w !! c)) ∧
  (∀ key v, rdb w !! key = Some v → in_int64 v).

(** The position a handler's result carries, when it carries one. *)
Definition snapshotOf (r : Res Response) : option PositionResponse :=
  match r with
  | Done {| body := Json p |} => Some p
  | _ => None
  end.

(** ** The CORS middleware *)

(** Of a request the middleware reads the method only; of the response
    writer it uses the header map and [WriteHeader]. *)
Record Request := { Method : string; RequestBody : Body }.

Record ResponseWriter := mkWriter {
  Header : gmap string string;   (* w.Header() *)
  wroteHeader : option Z         (* the status sent by WriteHeader, if any *)
}.

(** An [http.Handler]: [ServeHTTP(w, r)] acting on the writer. *)
Definition Handler : Type := ResponseWriter → Request → M ResponseWriter.

(** [w.Header().Set(key, value)] *)
Definition Header_Set (key value : string) (rw : ResponseWriter) : ResponseWriter :=
  mkWriter (<[key := value]> (Header rw)) (wroteHeader rw).

(** [w.WriteHeader(code)]: only the first call sends a status. *)
Definition WriteHeader (code : Z) (rw : ResponseWriter) : ResponseWriter :=
  mkWriter (Header rw)
           (match wroteHeader rw with
            | None => Some code
            | Some sent => Some sent
            end).

Definition MethodOptions : string := "OPTIONS".

(** [corsMiddleware] *)
Definition corsMiddleware (next : Handler) : Handler := λ w r,
  let w := Header_Set "Access-Control-Allow-Origin" "*" w in
  let w := Header_Set "Access-Control-Allow-Methods" "GET, POST, OPTIONS" w in
  let w := Header_Set "Access-Control-Allow-Headers" "Content-Type, Authorization" w in
  let w := Header_Set "Access-Control-Max-Age" "3600" w in
  if decide (Method r = MethodOptions) then mret (WriteHeader StatusOK w)
  else next w r.

(** The four headers the middleware sets. *)
Definition corsHeaders : list (string * string) :=
  [("Access-Control-Allow-Origin", "*");
   ("Access-Control-Allow-Methods", "GET, POST, OPTIONS");
   ("Access-Control-Allow-Headers", "Content-Type, Authorization");
   ("Access-Control-Max-Age", "3600")].

(** ** The client's view of the track ([App.jsx])

    The second effect of [App] moves the scroll window of the track after
    every change of [position].  Positions and pixel sizes are integers
    (JavaScript numbers holding integers far below 2^53), modelled as [Z];
    [scrollTarget] is the value the effect assigns to
    [trackRef.current.scrollLeft], or the value found there when the effect
    assigns nothing; how the browser clips an assigned value to the
    scrollable range is outside the model. *)

Definition trackWidth : Z := 50000.
Definition finishLinePosition : Z := trackWidth - 70.

Record Viewport := mkViewport {
  scrollLeft : Z;        (* trackRef.current.scrollLeft *)
  trackOffsetWidth : Z;  (* trackRef.current.offsetWidth *)
  carOffsetWidth : Z     (* carRef.current.offsetWidth *)
}.

Definition scrollTarget (position : Z) (v : Viewport) : Z :=
  let visibleTrackStart := scrollLeft v in
  let visibleTrackEnd := visibleTrackStart + trackOffsetWidth v in
  if (visibleTrackEnd - carOffsetWidth v * 2 <? position)
     && (position <? finishLinePosition)
  then position - trackOffsetWidth v + carOffsetWidth v * 2
  else if position <? visibleTrackStart + carOffsetWidth v
  then Z.max 0 (position - carOffsetWidth v)
  else scrollLeft v.

(** The viewport after the effect ran. *)
Definition scrolled (position : Z) (v : Viewport) : Viewport :=
  mkViewport (scrollTarget position v) (trackOffsetWidth v) (carOffsetWidth v).

(** [position >= finishLinePosition]: the effect raises the alert. *)
Definition finished (position : Z) : bool := finishLinePosition <=? position.

(** ** [updatePosition] in two steps

    Between the increment and what follows it the handler holds no lock:
    another request can run in between.  [updatePosition_rest] is the part
    of [updatePosition] that runs once the increment returned [newPos]. *)
Definition updatePosition_rest (newPos : Z) : M Response :=
  newPos ← (if newPos <? 0
            then rdb_Set "carPosition" 0;; mret 0
            else mret newPos);
  broadcastPosition (int_of_int64 newPos);;
  json_Encode {| Position := int_of_int64 newPos |}.


(** [twoClients] after a pass in which socket 1 refused the write. *)
Definition prunedOne : World := post (broadcastPosition 50 socket1Broken twoClients).

(** * Properties *)

(** ** Lists and the monad *)

Lemma flat_map_agree {A B} (f g : A → list B) l :
  (∀ x, x ∈ l → f x = g x) → flat_map f l = flat_map g l.
Proof.
  induction l as [|a l IH]; intros H; simpl; [reflexivity|].
  rewrite H by left. rewrite IH; [reflexivity|]. intros x Hx. apply H. by right.
Qed.

Lemma elem_of_flat_map {A B} (f : A → list B) (l : list A) (y : B) :
  y ∈ flat_map f l ↔ ∃ x, x ∈ l ∧ y ∈ f x.
Proof.
  rewrite list_elem_of_In, in_flat_map. split.
  - intros (x & Hx & Hy). exists x. by rewrite !list_elem_of_In.
  - intros (x & Hx & Hy). exists x. by rewrite <- !list_elem_of_In.
Qed.

Lemma bind_Done {A B} (m : M A) (f : A → M B) env w a :
  res (m env w) = Done a →
  (m ≫= f) env w =
  mkOut (res (f a env (post (m env w)))) (post (f a env (post (m env w))))
        (log (m env w) ++ log (f a env (post (m env w)))).
Proof. intros H. unfold mbind, M_bind, bind. by rewrite H. Qed.

Lemma post_bind_ret {A B} (m : M A) (f : A → B) env w :
  post ((x ← m; mret (f x)) env w) = post (m env w).
Proof. unfold mbind, M_bind, bind. by destruct (res (m env w)). Qed.

(** ** Integers and conversions *)

Lemma in_int64b_true z : in_int64b z = true ↔ in_int64 z.
Proof.
  unfold in_int64b, in_int64.
  rewrite andb_true_iff, Z.leb_le, Z.ltb_lt. reflexivity.
Qed.

Lemma wrap64_id z : in_int64 z → wrap64 z = z.
Proof.
  unfold in_int64, wrap64. intros Hz.
  change (2 ^ 63) with 9223372036854775808 in *.
  change (2 ^ 64) with 18446744073709551616.
  rewrite Z.mod_small; lia.
Qed.

Lemma wrap64_in_int64 z : in_int64 (wrap64 z).
Proof.
  unfold in_int64, wrap64.
  change (2 ^ 63) with 9223372036854775808.
  change (2 ^ 64) with 18446744073709551616.
  pose proof (Z.mod_pos_bound (z + 9223372036854775808) 18446744073709551616).
  lia.
Qed.

Lemma in_int64_max0 v : in_int64 v → in_int64 (Z.max 0 v).
Proof.
  unfold in_int64. change (2 ^ 63) with 9223372036854775808. lia.
Qed.

(** ** The Redis calls *)

Lemma rdb_IncrBy_returns key delta env w :
  ∃ r, res (rdb_IncrBy key delta env w) = Done r.
Proof.
  unfold rdb_IncrBy. destruct (incrFault env); [eauto|].
  destruct (negb _); [eauto|]. destruct (negb _); eauto.
Qed.

Lemma rdb_IncrBy_inl key delta env w e :
  res (rdb_IncrBy key delta env w) = Done (inl e) →
  rdb_IncrBy key delta env w = mkOut (Done (inl e)) w [EvIncrBy key delta (inl e)].
Proof.
  unfold rdb_IncrBy. destruct (incrFault env); simpl.
  - intros [= <-]. reflexivity.
  - destruct (negb _); simpl; [intros [= <-]; reflexivity|].
    destruct (negb _); simpl; [intros [= <-]; reflexivity|discriminate].
Qed.

Lemma rdb_IncrBy_inr key delta env w v :
  res (rdb_IncrBy key delta env w) = Done (inr v) →
  incrFault env = None ∧
  v = default 0 (rdb w !! key) + delta ∧
  in_int64 v ∧
  rdb_IncrBy key delta env w =
    mkOut (Done (inr v)) (set_rdb (insert key v) w) [EvIncrBy key delta (inr v)].
Proof.
  unfold rdb_IncrBy. destruct (incrFault env); simpl; [discriminate|].
  destruct (negb _); simpl; [discriminate|].
  destruct (negb (in_int64b (_ + _))) eqn:Hr; simpl; [discriminate|].
  intros [= <-]. apply negb_false_iff, in_int64b_true in Hr. auto.
Qed.

Lemma rdb_IncrBy_calm key delta env w :
  incrFault env = None →
  in_int64 (default 0 (rdb w !! key)) →
  in_int64 (default 0 (rdb w !! key) + delta) →
  res (rdb_IncrBy key delta env w) = Done (inr (default 0 (rdb w !! key) + delta)).
Proof.
  intros Hf H1 H2. unfold rdb_IncrBy. rewrite Hf.
  apply in_int64b_true in H1, H2. rewrite H1, H2. reflexivity.
Qed.

(** ** The fan-out loop *)

Section FanOut.

Context (env : Env) (msg : PositionResponse).

Lemma writeFails_closed w w' c :
  closed w' = closed w → writeFails env w' c = writeFails env w c.
Proof. unfold writeFails. by intros ->. Qed.

Lemma fanout_events_closed w w' c :
  closed w' = closed w → fanout_events env w' msg c = fanout_events env w msg c.
Proof. intros H. unfold fanout_events. by rewrite (writeFails_closed _ _ _ H). Qed.

Lemma elem_of_fanout_events w c e :
  e ∈ fanout_events env w msg c ↔
  e = EvWrite c msg (negb (writeFails env w c)) ∨
  (writeFails env w c = true ∧ e = EvClose c).
Proof.
  unfold fanout_events. destruct (writeFails env w c); simpl.
  - rewrite !elem_of_cons, elem_of_nil. naive_solver.
  - rewrite elem_of_cons, elem_of_nil. naive_solver.
Qed.

(** The loop over a duplicate-free list of registered connections: each
    one contributes its own events, a failing one is closed and deleted. *)
Lemma fanout_loop l :
  NoDup l → ∀ w, (∀ c, c ∈ l → is_Some (wsClients w !! c)) →
  let o := forEach l (sendOrPrune msg) env w in
  res o = Done tt ∧
  log o = flat_map (fanout_events env w msg) l ∧
  rdb (post o) = rdb w ∧
  wsMutex (post o) = wsMutex w ∧
  readLoop (post o) = readLoop w ∧
  (∀ c, wsClients (post o) !! c =
        if bool_decide (c ∈ l) && writeFails env w c then None
        else wsClients w !! c) ∧
  (∀ c, c ∈ closed (post o) ↔ c ∈ closed w ∨ (c ∈ l ∧ writeFails env w c = true)).
Proof.
  induction 1 as [|a l Ha Hl IH]; intros w Hin; simpl.
  - repeat split; auto.
    + intros [?|[H _]]; [done|]. by apply elem_of_nil in H.
  - assert (Hpres : bool_decide (is_Some (wsClients w !! a)) = true).
    { apply bool_decide_eq_true. apply Hin. left. }
    unfold mbind, M_bind, bind at 1. unfold sendOrPrune at 1.
    unfold mbind, M_bind, bind, wsClients_has, WriteMessage. simpl.
    rewrite Hpres. simpl.
    destruct (writeFails env w a) eqn:Hf; simpl.
    + set (w1 := set_wsClients (delete a) (set_closed (λ s, {[a]} ∪ s) w)).
      assert (Hw1 : ∀ c, c ∈ l → writeFails env w1 c = writeFails env w c).
      { intros c Hc. unfold writeFails. f_equal. simpl.
        apply bool_decide_ext. set_solver. }
      destruct (IH w1) as (Hr & Hlog & Hrdb & Hmx & Hrl & Hcl & Hcs).
      { intros c Hc. simpl. rewrite lookup_delete_ne by set_solver.
        apply Hin. by right. }
      rewrite Hr. simpl. split; [done|]. split.
      { unfold fanout_events at 1. rewrite Hf. simpl. do 2 f_equal.
        rewrite Hlog. apply flat_map_agree.
        intros c Hc. unfold fanout_events. by rewrite Hw1. }
      split; [by rewrite Hrdb|]. split; [by rewrite Hmx|].
      split; [by rewrite Hrl|]. split.
      * intros c. rewrite Hcl. simpl.
        destruct (decide (c = a)) as [->|Hne].
        -- rewrite (bool_decide_eq_false_2 (a ∈ l)) by done. simpl.
           rewrite lookup_delete_eq, Hf.
           rewrite bool_decide_eq_true_2 by left. done.
        -- rewrite lookup_delete_ne by done.
           destruct (decide (c ∈ l)) as [Hc|Hc].
           ++ rewrite !bool_decide_eq_true_2 by (done || by right).
              by rewrite Hw1.
           ++ rewrite !bool_decide_eq_false_2; [done| |done].
              rewrite elem_of_cons. naive_solver.
      * intros c. rewrite Hcs. simpl. rewrite elem_of_cons.
        split.
        -- intros [Hc|[Hc Hfc]].
           ++ apply elem_of_union in Hc as [Hc|Hc]; [|by left].
              apply elem_of_singleton in Hc as ->. right. auto.
           ++ right. rewrite <- Hw1 by done. auto.
        -- intros [Hc|[[->|Hc] Hfc]].
           ++ left. set_solver.
           ++ left. set_solver.
           ++ right. rewrite Hw1 by done. auto.
    + destruct (IH w) as (Hr & Hlog & Hrdb & Hmx & Hrl & Hcl & Hcs).
      { intros c Hc. apply Hin. by right. }
      rewrite Hr. simpl. split; [done|]. split.
      { unfold fanout_events at 1. rewrite Hf. simpl. by rewrite Hlog. }
      repeat split; auto.
      * intros c. rewrite Hcl.
        destruct (decide (c = a)) as [->|Hne].
        -- rewrite (bool_decide_eq_false_2 (a ∈ l)) by done.
           rewrite bool_decide_eq_true_2 by left. simpl. by rewrite Hf.
        -- destruct (decide (c ∈ l)) as [Hc|Hc].
           ++ by rewrite !bool_decide_eq_true_2 by (done || by right).
           ++ rewrite !bool_decide_eq_false_2; [done| |done].
              rewrite elem_of_cons. naive_solver.
      * rewrite Hcs. rewrite elem_of_cons. naive_solver.
      * rewrite Hcs. rewrite elem_of_cons.
        intros [Hc|[[->|Hc] Hfc]]; [by left|congruence|by right].
Qed.

End FanOut.

Lemma rangeOrder_NoDup env (m : gmap Conn bool) : NoDup (rangeOrder env m).
Proof.
  rewrite (rangeOrder_perm env m). apply NoDup_fst_map_to_list.
Qed.

Lemma elem_of_rangeOrder env (m : gmap Conn bool) c :
  c ∈ rangeOrder env m ↔ is_Some (m !! c).
Proof.
  rewrite (rangeOrder_perm env m), list_elem_of_fmap. split.
  - intros [[k v] [-> Hkv]]. apply elem_of_map_to_list in Hkv. eauto.
  - intros [v Hv]. exists (c, v). split; [done|]. by apply elem_of_map_to_list.
Qed.

(** What one call of [broadcastPosition] does when the mutex is free. *)
Lemma broadcastPosition_spec env w pos :
  wsMutex w = false →
  let o := broadcastPosition pos env w in
  res o = Done tt ∧
  log o = EvLock ::
          flat_map (fanout_events env w {| Position := pos |})
                   (rangeOrder env (wsClients w)) ++ [EvUnlock] ∧
  rdb (post o) = rdb w ∧
  wsMutex (post o) = false ∧
  readLoop (post o) = readLoop w ∧
  (∀ c, wsClients (post o) !! c =
        if writeFails env w c then None else wsClients w !! c) ∧
  (∀ c, c ∈ closed (post o) ↔
        c ∈ closed w ∨ (is_Some (wsClients w !! c) ∧ writeFails env w c = true)).
Proof.
  intros Hfree.
  set (w1 := set_wsMutex true w). set (l := rangeOrder env (wsClients w)).
  destruct (fanout_loop env {| Position := pos |} l (rangeOrder_NoDup _ _) w1)
    as (Hr & Hlog & Hrdb & Hmx & Hrl & Hcl & Hcs).
  { intros c Hc. apply elem_of_rangeOrder in Hc. exact Hc. }
  unfold broadcastPosition.
  unfold mbind, M_bind, bind, Lock, wsClients_range. rewrite Hfree.
  cbn [res post log]. fold w1. change (wsClients w1) with (wsClients w). fold l.
  rewrite Hr. cbn [res post log]. unfold Unlock. rewrite Hmx.
  cbn [res post log wsMutex w1 set_wsMutex].
  split; [done|]. split.
  { rewrite Hlog. reflexivity. }
  split; [done|]. split; [done|]. split; [done|]. split.
  - intros c. cbn [wsClients set_wsMutex]. rewrite Hcl. simpl.
    change (writeFails env w1 c) with (writeFails env w c).
    destruct (decide (c ∈ l)) as [Hc|Hc].
    + by rewrite bool_decide_eq_true_2.
    + rewrite bool_decide_eq_false_2 by done. simpl.
      destruct (writeFails env w c); [|done].
      destruct (wsClients w !! c) eqn:E; [|done].
      exfalso. apply Hc. apply elem_of_rangeOrder. eauto.
  - intros c. cbn [closed set_wsMutex]. rewrite Hcs. simpl.
    change (writeFails env w1 c) with (writeFails env w c).
    unfold l. rewrite elem_of_rangeOrder. reflexivity.
Qed.


(** ** The pass when a write may not return *)

Section FanOutFull.

Context (env : Env) (msg : PositionResponse) (fate : Conn → WriteEnd).

Lemma sendOrPrune_full_Returns c w :
  fate c = Returns →
  sendOrPrune_full fate msg c env w = sendOrPrune msg c env w.
Proof.
  intros Hc. unfold sendOrPrune_full, sendOrPrune, mbind, M_bind, bind.
  cbn [wsClients_has res post log].
  destruct (bool_decide (is_Some (wsClients w !! c))); [|reflexivity].
  unfold WriteMessage_full. by rewrite Hc.
Qed.

Lemma sendOrPrune_returns c w : res (sendOrPrune msg c env w) = Done tt.
Proof.
  unfold sendOrPrune, mbind, M_bind, bind, wsClients_has, WriteMessage.
  cbn. destruct (bool_decide _); cbn; [|done]. by destruct (negb _).
Qed.

Lemma sendOrPrune_others c c' w :
  c' ≠ c → wsClients (post (sendOrPrune msg c env w)) !! c' = wsClients w !! c'.
Proof.
  intros Hne. unfold sendOrPrune, mbind, M_bind, bind, wsClients_has, WriteMessage.
  cbn. destruct (bool_decide _); cbn; [|done]. destruct (negb _); cbn; [done|].
  by rewrite lookup_delete_ne.
Qed.

Lemma served_elem_of l c : c ∈ served fate l → c ∈ l ∧ fate c = Returns.
Proof.
  induction l as [|a l IH]; cbn; [by rewrite elem_of_nil|].
  destruct (fate a) eqn:Ha; try by rewrite elem_of_nil.
  rewrite !elem_of_cons. intros [->|Hc]; [auto|]. naive_solver.
Qed.

Lemma served_NoDup l : NoDup l → NoDup (served fate l).
Proof.
  induction 1 as [|a l Ha Hl IH]; cbn; [constructor|].
  destruct (fate a); try constructor; [|done].
  intros Hin. by apply served_elem_of in Hin as [? _].
Qed.

Lemma served_all l :
  (∀ c, c ∈ l → fate c = Returns) → served fate l = l ∧ stopsAt fate l = None.
Proof.
  induction l as [|a l IH]; intros Hall; cbn; [done|].
  rewrite (Hall a) by left. destruct IH as [-> ->]; [|done].
  intros c Hc. apply Hall. by right.
Qed.

Lemma served_prefix before c after :
  (∀ c', c' ∈ before → fate c' = Returns) → fate c ≠ Returns →
  served fate (before ++ c :: after) = before ∧
  stopsAt fate (before ++ c :: after) = Some c.
Proof.
  induction before as [|a l IH]; intros Hall Hc; cbn.
  - by destruct (fate c).
  - rewrite (Hall a) by left. destruct IH as [-> ->]; [|done..].
    intros c' Hc'. apply Hall. by right.
Qed.

(** The loop reaches the connections before the first write that does not
    return, treats them as [sendOrPrune] does, and ends as that write. *)
Lemma fanout_loop_full l :
  NoDup l → ∀ w, (∀ c, c ∈ l → is_Some (wsClients w !! c)) →
  let o := forEach l (sendOrPrune_full fate msg) env w in
  let o0 := forEach (served fate l) (sendOrPrune msg) env w in
  res o = passResult fate l ∧ post o = post o0 ∧ log o = log o0.
Proof.
  induction 1 as [|a l Ha Hl IH]; intros w Hin; [done|].
  assert (Hpres : bool_decide (is_Some (wsClients w !! a)) = true).
  { apply bool_decide_eq_true. apply Hin. left. }
  cbn [forEach served]. unfold passResult. cbn [stopsAt].
  destruct (fate a) eqn:Hfa.
  - cbn [forEach]. unfold mbind, M_bind, bind.
    rewrite (sendOrPrune_full_Returns _ _ Hfa), sendOrPrune_returns.
    cbn [res post log].
    destruct (IH (post (sendOrPrune msg a env w))) as (Hr & Hp & Hlg).
    { intros c Hc. rewrite sendOrPrune_others by set_solver. apply Hin. by right. }
    split; [exact Hr|]. split; [exact Hp|]. by rewrite Hlg.
  - unfold mbind, M_bind, bind, sendOrPrune_full, mbind, M_bind, bind,
      wsClients_has, WriteMessage_full.
    cbn. rewrite Hpres, Hfa. by cbn.
  - unfold mbind, M_bind, bind, sendOrPrune_full, mbind, M_bind, bind,
      wsClients_has, WriteMessage_full.
    cbn. rewrite Hpres, Hfa. by cbn.
Qed.

Lemma forEach_sendOrPrune_returns l w :
  res (forEach l (sendOrPrune msg) env w) = Done tt.
Proof.
  revert w. induction l as [|a l IH]; intros w; [done|].
  cbn [forEach]. unfold mbind, M_bind, bind. rewrite sendOrPrune_returns.
  cbn [res]. apply IH.
Qed.

End FanOutFull.

Lemma forEach_allReturn msg l env w :
  forEach l (sendOrPrune_full allReturn msg) env w =
  forEach l (sendOrPrune msg) env w.
Proof.
  revert w. induction l as [|a l IH]; intros w; [done|].
  cbn [forEach]. unfold mbind, M_bind, bind.
  rewrite sendOrPrune_full_Returns by done.
  destruct (res (sendOrPrune msg a env w)); [|done..]. by rewrite IH.
Qed.

(** [broadcastPosition] is the pass in which every write returns. *)
Lemma broadcastPosition_full_allReturn pos env w :
  broadcastPosition_full allReturn pos env w = broadcastPosition pos env w.
Proof.
  unfold broadcastPosition_full, broadcastPosition, mbind, M_bind, bind, Lock.
  destruct (wsMutex w); [done|]. cbn [res post log].
  unfold deferred, wsClients_range. cbn [res post log].
  rewrite forEach_allReturn, forEach_sendOrPrune_returns.
  cbn [res post log app]. f_equal. by destruct (res (Unlock env _)) as [[]| | |].
Qed.

Lemma passResult_cases fate l :
  match stopsAt fate l with
  | None => passResult fate l = Done tt
  | Some c =>
      (fate c = Blocks ∧ passResult fate l = Parked) ∨
      (fate c = Panics ∧
       passResult fate l = Panic "concurrent write to websocket connection")
  end.
Proof.
  unfold passResult. destruct (stopsAt fate l) as [c|] eqn:Hs; [|done].
  assert (Hc : fate c ≠ Returns).
  { clear -Hs. induction l as [|a l IH]; [done|]. cbn in Hs.
    destruct (fate a) eqn:Ha; [by apply IH|..]; injection Hs as <-; congruence. }
  destruct (fate c); [done|by right|by left].
Qed.

(** What one call of [broadcastPosition_full] does when the mutex is free. *)
Lemma broadcastPosition_full_spec fate env w pos :
  wsMutex w = false →
  let keys := rangeOrder env (wsClients w) in
  let reached := served fate keys in
  let o := broadcastPosition_full fate pos env w in
  res o = passResult fate keys ∧
  log o = EvLock :: flat_map (fanout_events env w {| Position := pos |}) reached ++
          (if isParked (res o) then [] else [EvUnlock]) ∧
  rdb (post o) = rdb w ∧
  wsMutex (post o) = isParked (res o) ∧
  readLoop (post o) = readLoop w ∧
  (∀ c, wsClients (post o) !! c =
        if bool_decide (c ∈ reached) && writeFails env w c then None
        else wsClients w !! c) ∧
  (∀ c, c ∈ closed (post o) ↔
        c ∈ closed w ∨ (c ∈ reached ∧ writeFails env w c = true)).
Proof.
  intros Hfree keys reached.
  set (msg := {| Position := pos |}). set (w1 := set_wsMutex true w).
  assert (Hkeys : ∀ c, c ∈ keys → is_Some (wsClients w1 !! c)).
  { intros c Hc. apply elem_of_rangeOrder in Hc. exact Hc. }
  destruct (fanout_loop_full env msg fate keys (rangeOrder_NoDup _ _) w1 Hkeys)
    as (Hr & Hp & Hlg).
  destruct (fanout_loop env msg reached) with (w := w1)
    as (_ & Hlog & Hrdb & Hmx & Hrl & Hcl & Hcs).
  { apply served_NoDup, rangeOrder_NoDup. }
  { intros c Hc. apply Hkeys. by apply served_elem_of in Hc as [? _]. }
  fold reached in Hp, Hlg. rewrite <- Hp in Hrdb, Hmx, Hrl, Hcl, Hcs.
  rewrite <- Hlg in Hlog. clear Hp Hlg.
  unfold broadcastPosition_full. fold msg.
  unfold mbind, M_bind, bind, Lock. rewrite Hfree. cbn [res post log].
  fold w1. unfold deferred, wsClients_range. cbn [res post log].
  change (wsClients w1) with (wsClients w). fold keys.
  cbn [app]. rewrite Hr, Hlog.
  set (o1 := forEach keys (sendOrPrune_full fate msg) env w1) in *.
  assert (Hunlock : Unlock env (post o1) =
                    mkOut (Done tt) (set_wsMutex false (post o1)) [EvUnlock]).
  { unfold Unlock. by rewrite Hmx. }
  assert (Hcases : passResult fate keys = Done tt ∨ passResult fate keys = Parked ∨
                   passResult fate keys = Panic "concurrent write to websocket connection").
  { pose proof (passResult_cases fate keys) as Hcases.
    destruct (stopsAt fate keys); naive_solver. }
  destruct Hcases as [->|[->| ->]];
    rewrite ?Hunlock; cbn [res post log isParked wsMutex rdb readLoop wsClients closed set_wsMutex].
  all: rewrite ?app_nil_r.
  all: repeat (split; [done|]).
  all: exact Hcs.
Qed.

(** ** [updatePosition] *)

Lemma updatePosition_Malformed env w err :
  updatePosition (Malformed err) env w =
  mkOut (Done {| status := StatusBadRequest; body := ErrorText err |}) w [].
Proof. reflexivity. Qed.

Lemma rdb_Set_run key value env w :
  rdb_Set key value env w =
  mkOut (Done (Err <$> setFault env))
        (if setFault env is Some _ then w else set_rdb (insert key value) w)
        [EvSet key value (Err <$> setFault env)].
Proof. unfold rdb_Set. by destruct (setFault env). Qed.

Lemma clamp_run v env w :
  (if v <? 0 then rdb_Set "carPosition" 0;; mret 0 else mret v) env w =
  mkOut (Done (Z.max 0 v))
        (if (v <? 0) && bool_decide (setFault env = None)
         then set_rdb (insert "carPosition" 0) w else w)
        (if v <? 0 then [EvSet "carPosition" 0 (Err <$> setFault env)] else []).
Proof.
  destruct (Z.ltb_spec v 0) as [Hneg|Hpos]; simpl.
  - unfold mbind, M_bind, bind. rewrite rdb_Set_run. simpl.
    replace (Z.max 0 v) with 0 by lia.
    by destruct (setFault env).
  - unfold mret, M_ret, ret. by replace (Z.max 0 v) with v by lia.
Qed.

(** A run of [updatePosition] whose increment succeeded with result [v]. *)
Lemma updatePosition_incr_ok env w req v :
  wsMutex w = false →
  res (rdb_IncrBy "carPosition" (int64_of_int (Delta req)) env w) = Done (inr v) →
  let o := updatePosition (Payload req) env w in
  let eff := Z.max 0 v in
  res o = Done {| status := StatusOK; body := Json {| Position := eff |} |} ∧
  log o = EvIncrBy "carPosition" (int64_of_int (Delta req)) (inr v) ::
          (if v <? 0 then [EvSet "carPosition" 0 (Err <$> setFault env)] else []) ++
          EvLock :: flat_map (fanout_events env w {| Position := eff |})
                             (rangeOrder env (wsClients w)) ++ [EvUnlock] ∧
  rdb (post o) =
    (if (v <? 0) && bool_decide (setFault env = None)
     then <["carPosition" := 0]> (<["carPosition" := v]> (rdb w))
     else <["carPosition" := v]> (rdb w)) ∧
  wsMutex (post o) = false ∧
  readLoop (post o) = readLoop w ∧
  (∀ c, wsClients (post o) !! c =
        if writeFails env w c then None else wsClients w !! c) ∧
  (∀ c, c ∈ closed (post o) ↔
        c ∈ closed w ∨ (is_Some (wsClients w !! c) ∧ writeFails env w c = true)).
Proof.
  intros Hfree Hincr.
  destruct (rdb_IncrBy_inr _ _ _ _ _ Hincr) as (_ & _ & Hrange & Heq).
  assert (Hconv : int_of_int64 (Z.max 0 v) = Z.max 0 v).
  { apply wrap64_id, in_int64_max0, Hrange. }
  unfold updatePosition. cbn [json_Decode].
  rewrite (bind_Done _ _ _ _ _ Hincr). rewrite Heq. cbn [res post log].
  set (w1 := set_rdb (insert "carPosition" v) w).
  erewrite bind_Done by (rewrite clamp_run; reflexivity).
  rewrite !clamp_run. cbn [res post log]. rewrite Hconv.
  set (w2 := if (v <? 0) && bool_decide (setFault env = None)
             then set_rdb (insert "carPosition" 0) w1 else w1).
  assert (Hw2 : wsMutex w2 = false ∧ wsClients w2 = wsClients w ∧
                closed w2 = closed w ∧ readLoop w2 = readLoop w).
  { unfold w2. by destruct (_ && _). }
  destruct Hw2 as (Hfree2 & Hcl2 & Hcs2 & Hrl2).
  destruct (broadcastPosition_spec env w2 (Z.max 0 v) Hfree2)
    as (Hr & Hlog & Hrdb & Hmx & Hrl & Hcl & Hcs).
  rewrite (bind_Done _ _ _ _ _ Hr). cbn [res post log json_Encode ret].
  rewrite Hlog, Hrdb, Hmx, Hrl, Hcl2, Hrl2, app_nil_r.
  split; [done|]. split.
  { simpl. do 3 f_equal. f_equal. apply flat_map_agree.
    intros c _. by apply fanout_events_closed. }
  split; [unfold w2; by destruct (_ && _)|].
  split; [done|]. split; [done|]. split.
  - intros c. rewrite Hcl, Hcl2. by rewrite (writeFails_closed _ _ _ _ Hcs2).
  - intros c. rewrite Hcs, Hcl2, Hcs2. by rewrite (writeFails_closed _ _ _ _ Hcs2).
Qed.

(** The events of such a run. *)
Lemma elem_of_update_log env w req v e :
  wsMutex w = false →
  res (rdb_IncrBy "carPosition" (int64_of_int (Delta req)) env w) = Done (inr v) →
  e ∈ log (updatePosition (Payload req) env w) ↔
  e = EvIncrBy "carPosition" (int64_of_int (Delta req)) (inr v) ∨
  (v < 0 ∧ e = EvSet "carPosition" 0 (Err <$> setFault env)) ∨
  e = EvLock ∨ e = EvUnlock ∨
  ∃ c, is_Some (wsClients w !! c) ∧
       (e = EvWrite c {| Position := Z.max 0 v |} (negb (writeFails env w c)) ∨
        (writeFails env w c = true ∧ e = EvClose c)).
Proof.
  intros Hfree Hincr.
  destruct (updatePosition_incr_ok env w req v Hfree Hincr) as (_ & -> & _).
  rewrite elem_of_cons, elem_of_app, elem_of_cons, elem_of_app,
    elem_of_flat_map, elem_of_cons, elem_of_nil.
  setoid_rewrite elem_of_rangeOrder. setoid_rewrite elem_of_fanout_events.
  destruct (Z.ltb_spec v 0) as [Hneg|Hpos].
  - rewrite elem_of_cons, elem_of_nil. naive_solver.
  - rewrite elem_of_nil. naive_solver lia.
Qed.

(** Goals about membership in a log that [Hlog] describes event by event:
    [log_has] shows an event is there, [log_inv] analyses one that is. *)
Ltac log_has Hlog := apply Hlog; eauto 10.
Ltac log_inv Hlog :=
  let H := fresh "Hin" in intros H; apply Hlog in H; naive_solver lia.

(** A run of [updatePosition] whose increment failed. *)
Lemma updatePosition_incr_err env w req e :
  res (rdb_IncrBy "carPosition" (int64_of_int (Delta req)) env w) = Done (inl e) →
  let o := updatePosition (Payload req) env w in
  res o = Done {| status := StatusInternalServerError; body := ErrorText (Error e) |} ∧
  log o = [EvIncrBy "carPosition" (int64_of_int (Delta req)) (inl e)] ∧
  post o = w.
Proof.
  intros Hincr. unfold updatePosition. cbn [json_Decode].
  rewrite (bind_Done _ _ _ _ _ Hincr).
  rewrite (rdb_IncrBy_inl _ _ _ _ _ Hincr). by cbn.
Qed.

(** ** The claims about [updatePosition] *)


(** C3. When the increment fails, the handler answers 500 with the error's
    text and does nothing else: the failed increment is its only event (no
    socket write, no [Set]) and the process state is unchanged. *)
Theorem updatePosition_aborts_on_store_error env w req e :
  res (rdb_IncrBy "carPosition" (int64_of_int (Delta req)) env w) = Done (inl e) →
  let o := updatePosition (Payload req) env w in
  res o = Done {| status := StatusInternalServerError; body := ErrorText (Error e) |} ∧
  log o = [EvIncrBy "carPosition" (int64_of_int (Delta req)) (inl e)] ∧
  (∀ c m ok, EvWrite c m ok ∉ log o) ∧
  (∀ key x r, EvSet key x r ∉ log o) ∧
  post o = w.
Proof.
  intros Hincr o.
  destruct (updatePosition_incr_err env w req e Hincr) as (Hres & Hlog & Hpost).
  fold o in Hres, Hlog, Hpost. rewrite Hlog.
  repeat split; try done; intros; rewrite elem_of_cons, elem_of_nil; naive_solver.
Qed.

(** C8. A body that does not decode is answered 400 with the decoder's
    error; the handler makes no external call at all (no increment, no
    broadcast) and leaves the process state unchanged. *)
Theorem updatePosition_rejects_malformed env w b err :
  json_Decode b = inl err →
  updatePosition b env w =
  mkOut (Done {| status := StatusBadRequest; body := ErrorText (Error err) |}) w [].
Proof.
  intros Hdec. unfold updatePosition. rewrite Hdec. reflexivity.
Qed.

(** C10. When the increment succeeds with a negative result [v] and the
    clamp write fails, the handler still answers 200 with position 0 and
    broadcasts 0 to every registered subscriber; the failed [Set] is in the
    log, no error reaches the caller, and the store keeps [v]. *)
Theorem updatePosition_ignores_clamp_failure env w req v msg :
  wsMutex w = false →
  res (rdb_IncrBy "carPosition" (int64_of_int (Delta req)) env w) = Done (inr v) →
  v < 0 →
  setFault env = Some msg →
  let o := updatePosition (Payload req) env w in
  res o = Done {| status := StatusOK; body := Json {| Position := 0 |} |} ∧
  EvSet "carPosition" 0 (Some (Err msg)) ∈ log o ∧
  (∀ c, is_Some (wsClients w !! c) → ∃ ok, EvWrite c {| Position := 0 |} ok ∈ log o) ∧
  (∀ c m ok, EvWrite c m ok ∈ log o → m = {| Position := 0 |}) ∧
  rdb (post o) !! "carPosition" = Some v.
Proof.
  intros Hfree Hincr Hneg Hset o.
  destruct (updatePosition_incr_ok env w req v Hfree Hincr)
    as (Hres & _ & Hrdb & _).
  pose proof (λ e, elem_of_update_log env w req v e Hfree Hincr) as Hlog.
  fold o in Hres, Hrdb, Hlog.
  replace (Z.max 0 v) with 0 in * by lia. rewrite Hset in *.
  split; [exact Hres|]. split; [apply Hlog; auto|]. split; [|split].
  - intros c Hc. exists (negb (writeFails env w c)). log_has Hlog.
  - intros c m ok. log_inv Hlog.
  - rewrite Hrdb. rewrite andb_false_r. apply lookup_insert_eq.
Qed.

(** ** The claims about [broadcastPosition] *)

Lemma elem_of_full_log fate env w pos e :
  wsMutex w = false →
  let o := broadcastPosition_full fate pos env w in
  e ∈ log o ↔
  e = EvLock ∨ (isParked (res o) = false ∧ e = EvUnlock) ∨
  ∃ c, c ∈ served fate (rangeOrder env (wsClients w)) ∧
       (e = EvWrite c {| Position := pos |} (negb (writeFails env w c)) ∨
        (writeFails env w c = true ∧ e = EvClose c)).
Proof.
  intros Hfree o.
  destruct (broadcastPosition_full_spec fate env w pos Hfree) as (_ & Hlog & _).
  fold o in Hlog. rewrite Hlog.
  rewrite elem_of_cons, elem_of_app, elem_of_flat_map.
  setoid_rewrite elem_of_fanout_events.
  destruct (isParked (res o)).
  - rewrite elem_of_nil. naive_solver.
  - rewrite elem_of_cons, elem_of_nil. naive_solver.
Qed.

Lemma ioUnderLock_fanout env w msg l rest :
  ioUnderLock true (flat_map (fanout_events env w msg) l ++ rest) =
  ioUnderLock true rest.
Proof.
  induction l as [|c l IH]; simpl; [reflexivity|].
  unfold fanout_events at 1. destruct (writeFails env w c); simpl; exact IH.
Qed.

Lemma fanout_no_lock_event env w msg l :
  Forall (λ e, isLockEvent e = false) (flat_map (fanout_events env w msg) l).
Proof.
  induction l as [|c l IH]; simpl; [constructor|].
  apply Forall_app. split; [|exact IH].
  unfold fanout_events. destruct (writeFails env w c); repeat constructor.
Qed.

(** C4, as the code has it.  A fan-out pass in which every write returns
    isolates failures: the pass returns, every registered subscriber gets
    the write attempt its own socket decides, one whose write fails is
    closed and removed from [wsClients], one whose write succeeds stays
    registered, and nobody else is written to.  A write that blocks stops
    the pass at its subscriber, with the mutex held: the subscribers the
    loop visited before were served in that way, those it had not reached,
    the blocked one included, get no write and stay as they were. *)
Theorem broadcastPosition_isolates_returned_failures fate env w pos :
  wsMutex w = false →
  let o := broadcastPosition_full fate pos env w in
  let msg := {| Position := pos |} in
  let servedAlone (c : Conn) : Prop :=
    EvWrite c msg (negb (writeFails env w c)) ∈ log o ∧
    if writeFails env w c
    then wsClients (post o) !! c = None ∧
         c ∈ closed (post o) ∧ EvClose c ∈ log o
    else wsClients (post o) !! c = wsClients w !! c ∧
         (c ∈ closed (post o) ↔ c ∈ closed w) in
  ((∀ c, is_Some (wsClients w !! c) → fate c = Returns) →
   res o = Done tt ∧
   (∀ c, is_Some (wsClients w !! c) → servedAlone c) ∧
   (∀ c m ok, EvWrite c m ok ∈ log o →
              is_Some (wsClients w !! c) ∧ m = msg ∧
              ok = negb (writeFails env w c))) ∧
  (∀ before c after,
     rangeOrder env (wsClients w) = before ++ c :: after →
     (∀ c', c' ∈ before → fate c' = Returns) →
     fate c = Blocks →
     res o = Parked ∧
     wsMutex (post o) = true ∧
     (∀ c', c' ∈ before → servedAlone c') ∧
     (∀ c', c' ∈ c :: after →
            (∀ m ok, EvWrite c' m ok ∉ log o) ∧
            wsClients (post o) !! c' = wsClients w !! c' ∧
            (c' ∈ closed (post o) ↔ c' ∈ closed w))).
Proof.
  intros Hfree o msg servedAlone.
  destruct (broadcastPosition_full_spec fate env w pos Hfree)
    as (Hres & _ & _ & Hmx & _ & Hcl & Hcs).
  pose proof (λ e, elem_of_full_log fate env w pos e Hfree) as Hlog.
  fold o in Hres, Hmx, Hcl, Hcs, Hlog. cbv zeta in Hcl, Hcs, Hlog.
  set (keys := rangeOrder env (wsClients w)) in *.
  assert (Hserved : ∀ c, c ∈ served fate keys → servedAlone c).
  { intros c Hc. split; [apply Hlog; eauto 10|].
    specialize (Hcl c). specialize (Hcs c).
    rewrite bool_decide_eq_true_2 in Hcl by done. cbn [andb] in Hcl.
    destruct (writeFails env w c) eqn:Hf.
    - split; [done|]. split; [apply Hcs; auto|]. apply Hlog. eauto 10.
    - split; [done|]. rewrite Hcs. naive_solver. }
  split.
  - intros Hall.
    destruct (served_all fate keys) as [Hsv Hst].
    { intros c Hc. apply Hall. by apply elem_of_rangeOrder in Hc. }
    rewrite Hsv in Hserved, Hlog.
    split; [rewrite Hres; unfold passResult; by rewrite Hst|]. split.
    + intros c Hc. apply Hserved. by apply elem_of_rangeOrder.
    + intros c m ok Hin. apply Hlog in Hin.
      destruct Hin as [?|[[_ ?]|(c0 & Hc0 & Hin)]]; [done..|].
      apply elem_of_rangeOrder in Hc0. naive_solver.
  - intros before c after Hkeys Hbefore Hc.
    destruct (served_prefix fate before c after Hbefore) as [Hsv Hst];
      [congruence|].
    fold keys in Hkeys. rewrite <- Hkeys in Hsv, Hst.
    assert (Hpark : res o = Parked).
    { rewrite Hres. unfold passResult. by rewrite Hst, Hc. }
    rewrite Hsv in Hserved, Hlog, Hcl, Hcs.
    split; [exact Hpark|]. split; [by rewrite Hmx, Hpark|].
    split; [exact Hserved|].
    intros c' Hc'.
    assert (Hnot : c' ∉ before).
    { pose proof (rangeOrder_NoDup env (wsClients w)) as Hnd.
      fold keys in Hnd. rewrite Hkeys in Hnd.
      apply NoDup_app in Hnd as (_ & Hdisj & _). intros Hin.
      by apply (Hdisj c' Hin). }
    split; [|split].
    + intros m ok Hin. apply Hlog in Hin. naive_solver.
    + rewrite Hcl. by rewrite bool_decide_eq_false_2.
    + rewrite Hcs. naive_solver.
Qed.

(** C5, as the code has it.  Whatever the writes do, the log of a pass is
    [Lock], then the writes and closes of the pass, then the deferred
    [Unlock] unless a write blocked: the mutex is taken once, before the
    first write, never released in between, every socket write and every
    close happens while it is held, and it is held for as long as a write
    blocks.  The sockets written to were registered when the mutex was
    taken, all of them are written to when every write returns, and a
    failed subscriber that was closed is out of [wsClients] by the time the
    mutex is released. *)
Theorem broadcastPosition_writes_under_lock fate env w pos :
  wsMutex w = false →
  let o := broadcastPosition_full fate pos env w in
  ∃ section,
    log o = EvLock :: section ++ (if isParked (res o) then [] else [EvUnlock]) ∧
    Forall (λ e, isLockEvent e = false) section ∧
    ioUnderLock false (log o) = true ∧
    wsMutex (post o) = isParked (res o) ∧
    (∀ c m ok, EvWrite c m ok ∈ section → is_Some (wsClients w !! c)) ∧
    (∀ c, EvClose c ∈ section →
          wsClients (post o) !! c = None ∧ c ∈ closed (post o)) ∧
    ((∀ c, is_Some (wsClients w !! c) → fate c = Returns) →
     res o = Done tt ∧
     ∀ c, is_Some (wsClients w !! c) → ∃ m ok, EvWrite c m ok ∈ section).
Proof.
  intros Hfree o.
  destruct (broadcastPosition_full_spec fate env w pos Hfree)
    as (Hres & Hlog & _ & Hmx & _ & Hcl & Hcs).
  fold o in Hres, Hlog, Hmx, Hcl, Hcs. cbv zeta in Hcl, Hcs.
  set (keys := rangeOrder env (wsClients w)) in *.
  set (msg := {| Position := pos |}) in *.
  exists (flat_map (fanout_events env w msg) (served fate keys)).
  split; [exact Hlog|]. split; [apply fanout_no_lock_event|]. split.
  { rewrite Hlog. cbn [ioUnderLock negb andb]. rewrite ioUnderLock_fanout.
    by destruct (isParked (res o)). }
  split; [exact Hmx|]. split; [|split].
  - intros c m ok Hin. apply elem_of_flat_map in Hin as (c' & Hc' & Hin).
    apply elem_of_fanout_events in Hin as [[= -> _ _]|[_ ?]]; [|done].
    apply served_elem_of in Hc' as [Hc' _]. by apply elem_of_rangeOrder in Hc'.
  - intros c Hin. apply elem_of_flat_map in Hin as (c' & Hc' & Hin).
    apply elem_of_fanout_events in Hin as [?|[Hf [= ->]]]; [done|].
    split.
    + rewrite Hcl. by rewrite bool_decide_eq_true_2, Hf.
    + apply Hcs. auto.
  - intros Hall.
    destruct (served_all fate keys) as [Hsv Hst].
    { intros c Hc. apply Hall. by apply elem_of_rangeOrder in Hc. }
    split; [rewrite Hres; unfold passResult; by rewrite Hst|].
    intros c Hc. exists msg, (negb (writeFails env w c)).
    apply elem_of_flat_map. exists c. rewrite Hsv.
    split; [by apply elem_of_rangeOrder|].
    apply elem_of_fanout_events. by left.
Qed.

(** ** [getPosition] and the round trip *)

Lemma getPosition_present env w v :
  getFault env = None →
  rdb w !! "carPosition" = Some v →
  in_int64 v →
  getPosition env w =
  mkOut (Done {| status := StatusOK; body := Json {| Position := v |} |}) w
        [EvGet "carPosition" (inr v)].
Proof.
  intros Hget Hv Hr. apply in_int64b_true in Hr.
  unfold getPosition, mbind, M_bind, bind, rdb_Get_Int.
  rewrite Hget, Hv, Hr. reflexivity.
Qed.

Lemma getPosition_absent env w :
  getFault env = None →
  rdb w !! "carPosition" = None →
  getPosition env w =
  mkOut (Done {| status := StatusOK; body := Json {| Position := 0 |} |}) w
        [EvGet "carPosition" (inl redis_Nil)].
Proof.
  intros Hget Hv.
  unfold getPosition, mbind, M_bind, bind, rdb_Get_Int.
  rewrite Hget, Hv. reflexivity.
Qed.

(** An update that answered 200 decoded its body and had its increment
    succeed. *)
Lemma updatePosition_200 env w b p :
  res (updatePosition b env w) = Done {| status := StatusOK; body := Json p |} →
  ∃ req v, b = Payload req ∧
    res (rdb_IncrBy "carPosition" (int64_of_int (Delta req)) env w) = Done (inr v).
Proof.
  destruct b as [err|req].
  - rewrite (updatePosition_Malformed env w err). discriminate.
  - destruct (rdb_IncrBy_returns "carPosition" (int64_of_int (Delta req)) env w)
      as [[e|v] Hincr]; [|eauto].
    unfold updatePosition. cbn [json_Decode].
    rewrite (bind_Done _ _ _ _ _ Hincr). discriminate.
Qed.

Lemma no_failed_set_in evs key x e :
  existsb isFailedSet evs = false → EvSet key x (Some e) ∉ evs.
Proof.
  intros Hno Hin. apply list_elem_of_In in Hin.
  assert (existsb isFailedSet evs = true); [|congruence].
  apply existsb_exists. eauto.
Qed.

(** C7, the query after an update that decided the stored value.  When the
    key is absent [getPosition] answers 200 with position 0; after an
    update that answered 200 with position [p] and whose clamp write, if
    any, did not fail, [getPosition] answers 200 with the same [p]. *)
Theorem getPosition_round_trip env1 env2 w b p :
  wsMutex w = false →
  getFault env2 = None →
  (rdb w !! "carPosition" = None →
   res (getPosition env2 w) =
   Done {| status := StatusOK; body := Json {| Position := 0 |} |}) ∧
  (res (updatePosition b env1 w) = Done {| status := StatusOK; body := Json p |} →
   existsb isFailedSet (log (updatePosition b env1 w)) = false →
   res (getPosition env2 (post (updatePosition b env1 w))) =
   Done {| status := StatusOK; body := Json p |}).
Proof.
  intros Hfree Hget. split.
  - intros Habs. by rewrite getPosition_absent.
  - intros Hres Hno.
    destruct (updatePosition_200 _ _ _ _ Hres) as (req & v & -> & Hincr).
    destruct (rdb_IncrBy_inr _ _ _ _ _ Hincr) as (_ & _ & Hrange & _).
    destruct (updatePosition_incr_ok env1 w req v Hfree Hincr)
      as (Hres' & _ & Hrdb & _).
    rewrite Hres in Hres'. injection Hres' as ->.
    rewrite (getPosition_present env2 _ (Z.max 0 v)); [done|done| |].
    + rewrite Hrdb. destruct (Z.ltb_spec v 0) as [Hneg|Hpos]; simpl.
      * destruct (setFault env1) as [msg|] eqn:Hset.
        -- exfalso. eapply (no_failed_set_in _ "carPosition" 0 (Err msg)); [exact Hno|].
           apply (proj2 (elem_of_update_log env1 w req v _ Hfree Hincr)).
           rewrite Hset. auto.
        -- simpl. rewrite lookup_insert_eq. f_equal. lia.
      * rewrite lookup_insert_eq. f_equal. lia.
    + by apply in_int64_max0.
Qed.

(** C7 as stated fails: an update whose clamp write failed answers 0, and
    the next query answers the negative value left in the store. *)
Lemma getPosition_after_failed_clamp :
  let o := updatePosition (Payload {| Delta := -5 |})
                          (withSetFault "i/o timeout" calm) init in
  res o = Done {| status := StatusOK; body := Json {| Position := 0 |} |} ∧
  res (getPosition calm (post o)) =
  Done {| status := StatusOK; body := Json {| Position := -5 |} |}.
Proof. vm_compute. split; reflexivity. Qed.

(** C9, for a state that is not negative.  With delta 0, when the
    increment succeeds on a stored value [position w ≥ 0] (an absent key
    counting as 0), the handler answers and broadcasts that same value,
    issues no [Set], and the only change to the store is that the key then
    holds the value it read as. *)
Theorem updatePosition_zero_delta env w :
  wsMutex w = false →
  incrFault env = None →
  in_int64 (position w) →
  0 ≤ position w →
  let o := updatePosition (Payload {| Delta := 0 |}) env w in
  res o = Done {| status := StatusOK; body := Json {| Position := position w |} |} ∧
  (∀ c, is_Some (wsClients w !! c) →
        ∃ ok, EvWrite c {| Position := position w |} ok ∈ log o) ∧
  (∀ c m ok, EvWrite c m ok ∈ log o → m = {| Position := position w |}) ∧
  (∀ key x r, EvSet key x r ∉ log o) ∧
  position (post o) = position w ∧
  rdb (post o) = <["carPosition" := position w]> (rdb w) ∧
  (is_Some (rdb w !! "carPosition") → rdb (post o) = rdb w).
Proof.
  intros Hfree Hincr Hrange Hpos o.
  assert (Hres : res (rdb_IncrBy "carPosition" (int64_of_int (Delta {| Delta := 0 |})) env w)
                 = Done (inr (position w))).
  { cbn [Delta]. change (int64_of_int 0) with 0.
    rewrite rdb_IncrBy_calm; fold (position w); rewrite ?Z.add_0_r; done. }
  destruct (updatePosition_incr_ok env w _ _ Hfree Hres) as (Hr & _ & Hrdb & _).
  pose proof (λ e, elem_of_update_log env w _ _ e Hfree Hres) as Hlog.
  fold o in Hr, Hrdb, Hlog.
  replace (Z.max 0 (position w)) with (position w) in * by lia.
  assert (Hrdb' : rdb (post o) = <["carPosition" := position w]> (rdb w)).
  { rewrite Hrdb. by rewrite (proj2 (Z.ltb_ge _ _) Hpos). }
  split; [exact Hr|]. split; [|split; [|split; [|split; [|split]]]].
  - intros c Hc. exists (negb (writeFails env w c)). log_has Hlog.
  - intros c m ok. log_inv Hlog.
  - intros key x r. log_inv Hlog.
  - unfold position at 1. by rewrite Hrdb', lookup_insert_eq.
  - exact Hrdb'.
  - intros [x Hx]. rewrite Hrdb'. apply insert_id.
    unfold position. by rewrite Hx.
Qed.

(** C9 as stated fails on a negative stored value (left there by a failed
    clamp write): delta 0 then answers 0, not the stored -5, and its [Set]
    changes the store. *)
Lemma updatePosition_zero_delta_on_negative :
  let w := post (updatePosition (Payload {| Delta := -5 |})
                                (withSetFault "i/o timeout" calm) init) in
  let o := updatePosition (Payload {| Delta := 0 |}) calm w in
  position w = -5 ∧
  res o = Done {| status := StatusOK; body := Json {| Position := 0 |} |} ∧
  log o = [EvIncrBy "carPosition" 0 (inr (-5)); EvSet "carPosition" 0 None;
           EvLock; EvUnlock] ∧
  position (post o) = 0.
Proof. vm_compute. repeat split; reflexivity. Qed.

(** ** Sequences of submissions *)

Lemma exec_POST b env w r :
  res (updatePosition b env w) = Done r →
  exec (POST_position b env) w =
  mkOut (Done (Some r)) (post (updatePosition b env w))
        (log (updatePosition b env w)).
Proof.
  intros Hr. cbn [exec]. rewrite (bind_Done _ _ _ _ _ Hr).
  cbn [res post log mret M_ret ret]. by rewrite app_nil_r.
Qed.

(** One submission, from a state whose mutex is free. *)
Lemma submit_step s w :
  wsMutex w = false →
  let o := exec (submit s) w in
  wsMutex (post o) = false ∧
  (in_int64 s.1 → forallb incrReturnedNonneg (log o) = true →
   position (post o) = position w + s.1) ∧
  (existsb isFailedSet (log o) = false → 0 ≤ position w → 0 ≤ position (post o)) ∧
  (∀ st p, res o = Done (Some {| status := st; body := Json p |}) → 0 ≤ Position p).
Proof.
  intros Hfree. destruct s as [d env]. unfold submit. cbn [fst snd].
  set (req := {| Delta := d |}).
  destruct (rdb_IncrBy_returns "carPosition" (int64_of_int (Delta req)) env w)
    as [[e|v] Hincr].
  - destruct (updatePosition_incr_err env w req e Hincr)
      as (Hres & Hlog & Hpost).
    rewrite (exec_POST _ _ _ _ Hres). cbn [res post log].
    rewrite Hlog, Hpost. repeat split; try done.
  - destruct (updatePosition_incr_ok env w req v Hfree Hincr)
      as (Hres & Hlog & Hrdb & Hmx & _).
    destruct (rdb_IncrBy_inr _ _ _ _ _ Hincr) as (_ & Hv & _ & _).
    rewrite (exec_POST _ _ _ _ Hres). cbn [res post log].
    split; [exact Hmx|]. split; [|split].
    + intros Hd Hall. rewrite Hlog in Hall. cbn [forallb incrReturnedNonneg] in Hall.
      apply andb_true_iff in Hall as [Hpos _]. apply Z.leb_le in Hpos.
      unfold position at 1. rewrite Hrdb.
      rewrite (proj2 (Z.ltb_ge _ _) Hpos). cbn [andb].
      rewrite lookup_insert_eq. cbn [default]. rewrite Hv.
      cbn [Delta req]. unfold int64_of_int. by rewrite wrap64_id.
    + intros Hno Hpos. unfold position at 1. rewrite Hrdb.
      destruct (Z.ltb_spec v 0) as [Hneg|Hnn]; cbn [andb].
      * destruct (setFault env) as [msg|] eqn:Hset.
        -- exfalso. rewrite Hlog in Hno. simpl in Hno. discriminate Hno.
        -- rewrite bool_decide_eq_true_2 by done. by rewrite lookup_insert_eq.
      * by rewrite lookup_insert_eq.
    + intros st p [= _ <-]. cbn [Position]. lia.
Qed.

Lemma endState_cons a acts w :
  endState (a :: acts) w = endState acts (post (exec a w)).
Proof. reflexivity. Qed.

Lemma submissions_run subs : ∀ w,
  wsMutex w = false →
  let acts := submit <$> subs in
  (Forall (λ s, in_int64 s.1) subs →
   forallb incrReturnedNonneg (events (outs acts w)) = true →
   position (endState acts w) = position w + sumZ subs.*1) ∧
  (∀ o st p, o ∈ outs acts w →
     res o = Done (Some {| status := st; body := Json p |}) → 0 ≤ Position p) ∧
  (existsb isFailedSet (events (outs acts w)) = false →
   0 ≤ position w → 0 ≤ position (endState acts w)).
Proof.
  induction subs as [|s subs IH]; intros w Hfree acts; subst acts.
  - cbn. split; [intros; lia|]. split; [|done].
    intros o st p Ho. by apply elem_of_nil in Ho.
  - rewrite !fmap_cons, endState_cons. cbn [outs].
    destruct (submit_step s w Hfree) as (Hmx & Hsum & Hpos & Hresp).
    destruct (IH _ Hmx) as (IH1 & IH2 & IH3).
    split; [|split].
    + intros Hds Hall. apply Forall_cons in Hds as [Hd Hds].
      unfold events in Hall. cbn [flat_map] in Hall.
      rewrite forallb_app in Hall. apply andb_true_iff in Hall as [Ha Hb].
      rewrite IH1 by done. rewrite Hsum by done.
      unfold sumZ. cbn [foldr]. lia.
    + intros o st p Ho Hres. apply elem_of_cons in Ho as [->|Ho].
      * eapply Hresp, Hres.
      * eapply IH2; eauto.
    + unfold events. cbn [flat_map]. rewrite existsb_app.
      intros Hno Hw. apply orb_false_iff in Hno as [Ha Hb].
      apply IH3; auto.
Qed.





Lemma submit_step_clamped s w :
  wsMutex w = false →
  in_int64 s.1 →
  let o := exec (submit s) w in
  forallb incrReturned (log o) = true →
  existsb isFailedSet (log o) = false →
  position (post o) = Z.max 0 (position w + s.1).
Proof.
  intros Hfree Hd. destruct s as [d env]. unfold submit. cbn [fst snd] in *.
  set (req := {| Delta := d |}).
  destruct (rdb_IncrBy_returns "carPosition" (int64_of_int (Delta req)) env w)
    as [[e|v] Hincr].
  - destruct (updatePosition_incr_err env w req e Hincr) as (Hres & Hlog & _).
    rewrite (exec_POST _ _ _ _ Hres). cbn [res post log]. rewrite Hlog.
    intros Hret. discriminate Hret.
  - destruct (updatePosition_incr_ok env w req v Hfree Hincr)
      as (Hres & Hlog & Hrdb & _).
    destruct (rdb_IncrBy_inr _ _ _ _ _ Hincr) as (_ & Hv & _ & _).
    rewrite (exec_POST _ _ _ _ Hres). cbn [res post log].
    intros _ Hno.
    assert (Hvd : position w + d = v).
    { rewrite Hv. cbn [Delta req]. unfold int64_of_int. by rewrite wrap64_id. }
    rewrite Hvd. unfold position. rewrite Hrdb.
    destruct (Z.ltb_spec v 0) as [Hneg|Hnn]; cbn [andb].
    + destruct (setFault env) as [msg|] eqn:Hset.
      * exfalso. rewrite Hlog in Hno. simpl in Hno. discriminate Hno.
      * rewrite bool_decide_eq_true_2 by done. rewrite lookup_insert_eq.
        simpl. lia.
    + rewrite lookup_insert_eq. simpl. lia.
Qed.




(** ** Connections: [wsHandler] and [handleWSRead] *)

Lemma getPosition_post env w : post (getPosition env w) = w.
Proof.
  unfold getPosition, mbind, M_bind, bind, rdb_Get_Int. cbn [res post].
  destruct (getFault env); [reflexivity|].
  destruct (rdb w !! "carPosition"); [|reflexivity].
  destruct (in_int64b _); reflexivity.
Qed.

Lemma sendCurrentPosition_post c env w : post (sendCurrentPosition c env w) = w.
Proof.
  unfold sendCurrentPosition, mbind, M_bind, bind, rdb_Get_Int. cbn [res post].
  destruct (getFault env); [reflexivity|].
  destruct (rdb w !! "carPosition"); [|reflexivity].
  destruct (in_int64b _); reflexivity.
Qed.

(** The read loop changes nothing; it is left exactly when a read fails. *)
Lemma readUntilError_run c incoming env w :
  post (readUntilError c incoming env w) = w ∧
  (res (readUntilError c incoming env w) = Done tt ∨
   res (readUntilError c incoming env w) = Parked) ∧
  (c ∈ closed w ∨ ReadError ∈ incoming →
   res (readUntilError c incoming env w) = Done tt).
Proof.
  induction incoming as [|r rest IH]; cbn [readUntilError];
    unfold mbind, M_bind, bind, NextReader.
  - destruct (bool_decide (c ∈ closed w)) eqn:Hc; cbn.
    + auto.
    + split; [done|]. split; [auto|].
      intros [H|H]; [|by apply elem_of_nil in H].
      by apply bool_decide_eq_false in Hc.
  - destruct IH as (IHp & IHr & IHe).
    destruct (bool_decide (c ∈ closed w)) eqn:Hc; cbn; [auto|].
    apply bool_decide_eq_false in Hc.
    destruct r; cbn.
    + rewrite IHp. split; [done|]. split; [exact IHr|].
      intros [H|H]; [done|]. apply IHe. right.
      apply elem_of_cons in H as [H|H]; [discriminate|done].
    + auto.
Qed.

(** [handleWSRead] once its loop is left: the deferred function runs. *)
Lemma handleWSRead_exit c incoming env w :
  wsMutex w = false →
  res (readUntilError c incoming env w) = Done tt →
  let o := handleWSRead c incoming env w in
  res o = Done tt ∧
  rdb (post o) = rdb w ∧
  wsClients (post o) = delete c (wsClients w) ∧
  wsMutex (post o) = false ∧
  closed (post o) = {[c]} ∪ closed w ∧
  readLoop (post o) = <[c := Terminated]> (readLoop w) ∧
  log o = log (readUntilError c incoming env w) ++ [EvLock; EvUnlock; EvClose c].
Proof.
  intros Hfree Hexit. unfold handleWSRead.
  rewrite (bind_Done _ _ _ _ _ Hexit).
  rewrite (proj1 (readUntilError_run c incoming env w)).
  unfold mbind, M_bind, bind, Lock, Unlock, wsClients_delete, Close, goroutine_exit.
  rewrite Hfree. cbn. done.
Qed.

Lemma handleWSRead_parked c incoming env w :
  res (readUntilError c incoming env w) = Parked →
  res (handleWSRead c incoming env w) = Parked ∧
  post (handleWSRead c incoming env w) = w.
Proof.
  intros Hpark. unfold handleWSRead, mbind, M_bind, bind. rewrite Hpark.
  cbn. split; [done|]. apply readUntilError_run.
Qed.

Lemma wsHandler_upgraded c env w :
  wsMutex w = false →
  let o := wsHandler (inr c) env w in
  res o = Done None ∧
  rdb (post o) = rdb w ∧
  wsClients (post o) = <[c := true]> (wsClients w) ∧
  wsMutex (post o) = false ∧
  closed (post o) = closed w ∧
  readLoop (post o) = <[c := Running]> (readLoop w) ∧
  log o = [EvLock; EvUnlock; EvGoSend c; EvGoRead c].
Proof.
  intros Hfree. unfold wsHandler.
  unfold mbind, M_bind, bind, Lock, Unlock, wsClients_store,
    go_sendCurrentPosition, go_handleWSRead.
  rewrite Hfree. cbn. done.
Qed.

(** An update never adds to the registry and leaves the goroutines alone. *)
Lemma updatePosition_registry b env w :
  wsMutex w = false →
  let o := updatePosition b env w in
  wsMutex (post o) = false ∧
  readLoop (post o) = readLoop w ∧
  (∀ c, is_Some (wsClients (post o) !! c) → is_Some (wsClients w !! c)).
Proof.
  intros Hfree. cbv zeta. destruct b as [err|req].
  - rewrite updatePosition_Malformed. by cbn.
  - destruct (rdb_IncrBy_returns "carPosition" (int64_of_int (Delta req)) env w)
      as [[e|v] Hincr].
    + destruct (updatePosition_incr_err env w req e Hincr) as (_ & _ & ->). done.
    + destruct (updatePosition_incr_ok env w req v Hfree Hincr)
        as (_ & _ & _ & Hmx & Hrl & Hcl & _).
      split; [exact Hmx|]. split; [exact Hrl|].
      intros c. rewrite Hcl. destruct (writeFails env w c); [|done].
      intros [? ?]. discriminate.
Qed.

Lemma step_preserves a w :
  wsMutex w = false → registered_are_reading w → enabled a w →
  wsMutex (post (exec a w)) = false ∧ registered_are_reading (post (exec a w)).
Proof.
  intros Hfree Hinv Hen. destruct a as [env|b env|up env|c env|c incoming env];
    cbn [exec].
  - rewrite post_bind_ret, getPosition_post. done.
  - rewrite post_bind_ret.
    destruct (updatePosition_registry b env w Hfree) as (Hmx & Hrl & Hcl).
    split; [exact Hmx|]. intros c Hc. rewrite Hrl. apply Hinv, Hcl, Hc.
  - destruct up as [[code text err|err]|c]; [by cbn..|].
    destruct (wsHandler_upgraded c env w Hfree) as (_ & _ & Hcl & Hmx & _ & Hrl & _).
    split; [exact Hmx|]. intros c'. rewrite Hcl, Hrl.
    destruct (decide (c = c')) as [->|Hne].
    + by rewrite !lookup_insert_eq.
    + rewrite !lookup_insert_ne by done. apply Hinv.
  - rewrite (post_bind_ret _ (λ _, None)), sendCurrentPosition_post. done.
  - rewrite (post_bind_ret _ (λ _, None)).
    destruct (readUntilError_run c incoming env w) as (_ & [Hexit|Hpark] & _).
    + destruct (handleWSRead_exit c incoming env w Hfree Hexit)
        as (_ & _ & Hcl & Hmx & _ & Hrl & _).
      split; [exact Hmx|]. intros c'. rewrite Hcl, Hrl.
      destruct (decide (c = c')) as [->|Hne].
      * rewrite lookup_delete_eq. intros [? ?]. discriminate.
      * rewrite lookup_delete_ne, lookup_insert_ne by done. apply Hinv.
    + destruct (handleWSRead_parked c incoming env w Hpark) as (_ & ->). done.
Qed.

Lemma reachable_invariant w :
  reachable w → wsMutex w = false ∧ registered_are_reading w.
Proof.
  induction 1 as [|a w Hw [Hfree Hinv] Hen].
  - split; [done|]. intros c [x Hx]. cbn in Hx. by rewrite lookup_empty in Hx.
  - by apply step_preserves.
Qed.


(** ** The registry and the read loops *)

(** One step keeps: registered exactly when reading and not closed, and a
    closed connection had a read loop. *)
Lemma step_registry a w :
  wsMutex w = false →
  registered_iff_reading_open w →
  (∀ c, c ∈ closed w → is_Some (readLoop w !! c)) →
  enabled a w →
  let w' := post (exec a w) in
  registered_iff_reading_open w' ∧
  (∀ c, c ∈ closed w' → is_Some (readLoop w' !! c)).
Proof.
  intros Hfree Hinv Hcr Hen. unfold registered_iff_reading_open in *.
  destruct a as [env|b env|up env|c env|c incoming env]; cbn [exec]; cbv zeta.
  - rewrite post_bind_ret, getPosition_post. done.
  - rewrite post_bind_ret. destruct b as [err|req].
    { rewrite updatePosition_Malformed. done. }
    destruct (rdb_IncrBy_returns "carPosition" (int64_of_int (Delta req)) env w)
      as [[e|v] Hincr].
    { destruct (updatePosition_incr_err env w req e Hincr) as (_ & _ & ->). done. }
    destruct (updatePosition_incr_ok env w req v Hfree Hincr)
      as (_ & _ & _ & _ & Hrl & Hcl & Hcs).
    split.
    + intros c. rewrite Hcl, Hrl, Hcs. specialize (Hinv c).
      destruct (writeFails env w c); [|naive_solver].
      split; [intros [? ?]; discriminate|]. naive_solver.
    + intros c. rewrite Hcs, Hrl. intros [Hc|[Hc _]]; [by apply Hcr|].
      apply Hinv in Hc as [-> _]. eauto.
  - destruct up as [[code text err|err]|c]; [by cbn..|]. cbn in Hen.
    destruct (wsHandler_upgraded c env w Hfree) as (_ & _ & Hcl & _ & Hcs & Hrl & _).
    rewrite Hcl, Hcs, Hrl. split.
    + intros c'. destruct (decide (c = c')) as [<-|Hne].
      * rewrite !lookup_insert_eq. split; [|eauto]. intros _. split; [done|].
        intros Hc. apply Hcr in Hc as [x Hx]. congruence.
      * rewrite !lookup_insert_ne by done. apply Hinv.
    + intros c' Hc'. destruct (decide (c = c')) as [<-|Hne].
      * rewrite lookup_insert_eq. eauto.
      * rewrite lookup_insert_ne by done. by apply Hcr.
  - rewrite (post_bind_ret _ (λ _, None)), sendCurrentPosition_post. done.
  - rewrite (post_bind_ret _ (λ _, None)).
    destruct (readUntilError_run c incoming env w) as (_ & [Hexit|Hpark] & _).
    + destruct (handleWSRead_exit c incoming env w Hfree Hexit)
        as (_ & _ & Hcl & _ & Hcs & Hrl & _).
      rewrite Hcl, Hcs, Hrl. split.
      * intros c'. destruct (decide (c = c')) as [<-|Hne].
        -- rewrite lookup_delete_eq, lookup_insert_eq.
           split; [intros [? ?]; discriminate|]. intros [? _]. discriminate.
        -- rewrite lookup_delete_ne, lookup_insert_ne by done.
           rewrite (Hinv c'). set_solver.
      * intros c' Hc'. destruct (decide (c = c')) as [<-|Hne].
        -- rewrite lookup_insert_eq. eauto.
        -- rewrite lookup_insert_ne by done. apply Hcr. set_solver.
    + destruct (handleWSRead_parked c incoming env w Hpark) as (_ & ->). done.
Qed.

Lemma reachable_registry w :
  reachable w →
  registered_iff_reading_open w ∧ (∀ c, c ∈ closed w → is_Some (readLoop w !! c)).
Proof.
  induction 1 as [|a w Hw [Hinv Hcr] Hen].
  - split.
    + intros c. cbn. rewrite !lookup_empty. split; [intros [? ?]; discriminate|].
      intros [? _]. discriminate.
    + intros c Hc. cbn in Hc. set_solver.
  - apply step_registry; [by apply reachable_invariant|done..].
Qed.

(** C6, as the code has it.  In every reachable state a connection is
    registered exactly when its read loop has not ended and the server has
    not closed it (a broadcast closes and removes a subscriber whose write
    failed while its read loop is still running); and from such a state a
    read loop that meets a read error returns after removing its connection
    from [wsClients] and closing it. *)
Theorem registered_connections_are_read w :
  reachable w →
  (∀ c, is_Some (wsClients w !! c) ↔
        readLoop w !! c = Some Running ∧ c ∉ closed w) ∧
  ∀ c incoming env, ReadError ∈ incoming →
    let o := handleWSRead c incoming env w in
    res o = Done tt ∧
    wsClients (post o) !! c = None ∧
    c ∈ closed (post o) ∧
    EvClose c ∈ log o ∧
    readLoop (post o) !! c = Some Terminated.
Proof.
  intros Hw. destruct (reachable_invariant w Hw) as [Hfree _].
  split; [apply (reachable_registry w Hw)|]. intros c incoming env Herr.
  assert (Hexit : res (readUntilError c incoming env w) = Done tt).
  { apply readUntilError_run. by right. }
  destruct (handleWSRead_exit c incoming env w Hfree Hexit)
    as (Hres & _ & Hcl & _ & Hcs & Hrl & Hlog).
  split; [exact Hres|]. rewrite Hcl, Hcs, Hrl, Hlog.
  rewrite lookup_delete_eq, lookup_insert_eq. split; [done|].
  split; [set_solver|]. split; [|done].
  rewrite elem_of_app, !elem_of_cons. auto.
Qed.

(** C6 as stated fails: after a broadcast whose write to connection 1
    failed, connection 1 is out of the registry while its read loop has not
    ended. *)
Lemma pruned_connection_still_read :
  let failing := withWriteFault (λ c, bool_decide (c = 1%positive)) calm in
  let w := endState [WS_connect (inr 1%positive) calm;
                     POST_position (Payload {| Delta := 50 |}) failing] init in
  reachable w ∧
  wsClients w !! 1%positive = None ∧
  readLoop w !! 1%positive = Some Running ∧
  ¬ registered_iff_reading w.
Proof.
  intros failing w.
  assert (Hcl : wsClients w !! 1%positive = None) by (vm_compute; reflexivity).
  assert (Hrl : readLoop w !! 1%positive = Some Running) by (vm_compute; reflexivity).
  split; [|split; [exact Hcl|split; [exact Hrl|]]].
  - unfold w, endState. cbn [foldl].
    apply reachable_step; [apply reachable_step; [apply reachable_init|]|].
    + vm_compute. reflexivity.
    + exact I.
  - intros Hiff. destruct (Hiff 1%positive) as [_ Hback]; [by rewrite Hrl|].
    destruct (Hback Hrl) as [x Hx]. congruence.
Qed.

(** C5 as stated fails: with one subscriber the write of the pass happens
    between [Lock] and [Unlock]. *)
Lemma broadcastPosition_writes_while_locked :
  let w := endState [WS_connect (inr 1%positive) calm] init in
  wsMutex w = false ∧
  log (broadcastPosition 50 calm w) =
    [EvLock; EvWrite 1%positive {| Position := 50 |} true; EvUnlock] ∧
  writesOutsideLock (wsMutex w) (log (broadcastPosition 50 calm w)) = false.
Proof. vm_compute. repeat split; reflexivity. Qed.

(** The scenario of the specification: from 0, delta 50 answers and
    broadcasts 50; delta -200 then makes the store return -150, and the
    handler clamps, answers and broadcasts 0. *)
Example scenario_forward_then_far_back :
  let o1 := updatePosition (Payload {| Delta := 50 |}) calm twoClients in
  let o2 := updatePosition (Payload {| Delta := -200 |}) calm (post o1) in
  res o1 = Done {| status := 200; body := Json {| Position := 50 |} |} ∧
  log o1 = [EvIncrBy "carPosition" 50 (inr 50); EvLock;
            EvWrite 2%positive {| Position := 50 |} true;
            EvWrite 1%positive {| Position := 50 |} true; EvUnlock] ∧
  res o2 = Done {| status := 200; body := Json {| Position := 0 |} |} ∧
  log o2 = [EvIncrBy "carPosition" (-200) (inr (-150)); EvSet "carPosition" 0 None;
            EvLock;
            EvWrite 2%positive {| Position := 0 |} true;
            EvWrite 1%positive {| Position := 0 |} true; EvUnlock] ∧
  position (post o2) = 0.
Proof. vm_compute. repeat split; reflexivity. Qed.

(** Deltas 10 and -5 served one after the other from 0: the order matters,
    because -5 served first is clamped to 0. *)
Example scenario_two_deltas_by_order :
  position (endState (submit <$> [(10, calm); (-5, calm)]) init) = 5 ∧
  position (endState (submit <$> [(-5, calm); (10, calm)]) init) = 10.
Proof. vm_compute. split; reflexivity. Qed.

(** ** The theorems at concrete inputs *)






(** C4 as stated fails: two healthy subscribers, visited in the order 2, 1.
    When the write to 2 blocks, the pass never returns, holds the mutex and
    has written nothing to 1; when the write to 2 panics, the pass is
    aborted and has written nothing to 1 either. *)
Lemma broadcastPosition_stopped_by_one_subscriber :
  let blocked := broadcastPosition_full (onlyAt 2%positive Blocks) 50 calm twoClients in
  let aborted := broadcastPosition_full (onlyAt 2%positive Panics) 50 calm twoClients in
  wsMutex twoClients = false ∧
  rangeOrder calm (wsClients twoClients) = [2%positive; 1%positive] ∧
  writeFails calm twoClients 1%positive = false ∧
  res blocked = Parked ∧
  log blocked = [EvLock] ∧
  wsMutex (post blocked) = true ∧
  res aborted = Panic "concurrent write to websocket connection" ∧
  log aborted = [EvLock; EvUnlock].
Proof. vm_compute. repeat split; reflexivity. Qed.

Lemma updatePosition_aborts_on_store_error_witness :
  let env := withIncrFault "dial tcp: connection refused" calm in
  res (rdb_IncrBy "carPosition" (int64_of_int 50) env twoClients) =
    Done (inl (Err "dial tcp: connection refused")) ∧
  log (updatePosition (Payload {| Delta := 50 |}) env twoClients) =
    [EvIncrBy "carPosition" (int64_of_int 50) (inl (Err "dial tcp: connection refused"))] ∧
  post (updatePosition (Payload {| Delta := 50 |}) env twoClients) = twoClients.
Proof.
  intros env.
  assert (H : res (rdb_IncrBy "carPosition" (int64_of_int (Delta {| Delta := 50 |}))
                              env twoClients)
              = Done (inl (Err "dial tcp: connection refused")))
    by reflexivity.
  destruct (updatePosition_aborts_on_store_error env twoClients {| Delta := 50 |} _ H)
    as (_ & Hlog & _ & _ & Hpost).
  split; [exact H|]. split; [exact Hlog|exact Hpost].
Defined.


Lemma broadcastPosition_isolates_returned_failures_witness :
  let returned := broadcastPosition_full allReturn 50 socket1Broken twoClients in
  let blocked := broadcastPosition_full (onlyAt 2%positive Blocks) 50 calm twoClients in
  wsMutex twoClients = false ∧
  rangeOrder calm (wsClients twoClients) = [] ++ 2%positive :: [1%positive] ∧
  onlyAt 2%positive Blocks 2%positive = Blocks ∧
  res returned = Done tt ∧
  EvWrite 2%positive {| Position := 50 |} (negb (writeFails socket1Broken twoClients 2%positive))
    ∈ log returned ∧
  res blocked = Parked ∧
  wsMutex (post blocked) = true ∧
  wsClients (post blocked) !! 1%positive = wsClients twoClients !! 1%positive.
Proof.
  intros returned blocked.
  assert (H1 : wsMutex twoClients = false) by (vm_compute; reflexivity).
  assert (H2 : rangeOrder calm (wsClients twoClients) = [] ++ 2%positive :: [1%positive])
    by (vm_compute; reflexivity).
  assert (H3 : onlyAt 2%positive Blocks 2%positive = Blocks) by reflexivity.
  assert (H4 : ∀ c, is_Some (wsClients twoClients !! c) → allReturn c = Returns)
    by (intros c _; reflexivity).
  assert (H5 : ∀ c, c ∈ @nil positive → onlyAt 2%positive Blocks c = Returns)
    by (intros c Hc; by apply elem_of_nil in Hc).
  assert (H6 : is_Some (wsClients twoClients !! 2%positive))
    by (exists true; vm_compute; reflexivity).
  assert (H7 : 1%positive ∈ [2%positive; 1%positive]) by (right; left).
  destruct (broadcastPosition_isolates_returned_failures
              allReturn socket1Broken twoClients 50 H1) as [HA _].
  destruct (broadcastPosition_isolates_returned_failures
              (onlyAt 2%positive Blocks) calm twoClients 50 H1) as [_ HB].
  destruct (HA H4) as (Hres & Hall & _).
  destruct (HB [] 2%positive [1%positive] H2 H5 H3) as (Hpark & Hmx & _ & Hrest).
  split; [exact H1|]. split; [exact H2|]. split; [exact H3|].
  split; [exact Hres|]. split; [exact (proj1 (Hall 2%positive H6))|].
  split; [exact Hpark|]. split; [exact Hmx|].
  exact (proj1 (proj2 (Hrest 1%positive H7))).
Defined.

Lemma broadcastPosition_writes_under_lock_witness :
  wsMutex twoClients = false ∧
  ioUnderLock false (log (broadcastPosition_full allReturn 50 socket1Broken twoClients)) = true ∧
  wsMutex (post (broadcastPosition_full (onlyAt 1%positive Blocks) 50 socket1Broken twoClients))
  = isParked (res (broadcastPosition_full (onlyAt 1%positive Blocks) 50 socket1Broken twoClients)).
Proof.
  assert (H1 : wsMutex twoClients = false) by (vm_compute; reflexivity).
  destruct (broadcastPosition_writes_under_lock allReturn socket1Broken twoClients 50 H1)
    as (s1 & _ & _ & Hio & _).
  destruct (broadcastPosition_writes_under_lock (onlyAt 1%positive Blocks)
              socket1Broken twoClients 50 H1)
    as (s2 & _ & _ & _ & Hmx & _).
  split; [exact H1|]. split; [exact Hio|exact Hmx].
Defined.

Lemma registered_connections_are_read_witness :
  let w := endState [WS_connect (inr 1%positive) calm;
                     WS_connect (inr 2%positive) calm;
                     POST_position (Payload {| Delta := 50 |}) socket1Broken] init in
  reachable w ∧
  (is_Some (wsClients w !! 2%positive) ↔
   readLoop w !! 2%positive = Some Running ∧ 2%positive ∉ closed w) ∧
  (is_Some (wsClients w !! 1%positive) ↔
   readLoop w !! 1%positive = Some Running ∧ 1%positive ∉ closed w) ∧
  wsClients (post (handleWSRead 2%positive [Frame; ReadError] calm w))
    !! 2%positive = None.
Proof.
  intros w.
  assert (H : reachable w).
  { unfold w, endState. cbn [foldl].
    apply reachable_step;
      [apply reachable_step; [apply reachable_step; [apply reachable_init|]|]|].
    - vm_compute. reflexivity.
    - vm_compute. reflexivity.
    - exact I. }
  assert (H2 : ReadError ∈ [Frame; ReadError]) by (right; left).
  destruct (registered_connections_are_read w H) as [Hiff Hread].
  split; [exact H|]. split; [exact (Hiff 2%positive)|]. split; [exact (Hiff 1%positive)|].
  exact (proj1 (proj2 (Hread 2%positive [Frame; ReadError] calm H2))).
Defined.

Lemma getPosition_round_trip_witness :
  let b := Payload {| Delta := -200 |} in
  wsMutex twoClients = false ∧
  getFault calm = None ∧
  rdb twoClients !! "carPosition" = None ∧
  res (getPosition calm twoClients) =
    Done {| status := StatusOK; body := Json {| Position := 0 |} |} ∧
  res (updatePosition b calm twoClients) =
    Done {| status := StatusOK; body := Json {| Position := 0 |} |} ∧
  existsb isFailedSet (log (updatePosition b calm twoClients)) = false ∧
  res (getPosition calm (post (updatePosition b calm twoClients))) =
    Done {| status := StatusOK; body := Json {| Position := 0 |} |}.
Proof.
  intros b.
  assert (H1 : wsMutex twoClients = false) by (vm_compute; reflexivity).
  assert (H2 : getFault calm = None) by reflexivity.
  assert (H3 : rdb twoClients !! "carPosition" = None) by (vm_compute; reflexivity).
  assert (H4 : res (updatePosition b calm twoClients) =
               Done {| status := StatusOK; body := Json {| Position := 0 |} |})
    by (vm_compute; reflexivity).
  assert (H5 : existsb isFailedSet (log (updatePosition b calm twoClients)) = false)
    by (vm_compute; reflexivity).
  destruct (getPosition_round_trip calm calm twoClients b {| Position := 0 |} H1 H2)
    as (Habs & Hrt).
  split; [exact H1|]. split; [exact H2|]. split; [exact H3|].
  split; [exact (Habs H3)|]. split; [exact H4|]. split; [exact H5|].
  exact (Hrt H4 H5).
Defined.

Lemma updatePosition_rejects_malformed_witness :
  json_Decode (Malformed "unexpected EOF") = inl (Err "unexpected EOF") ∧
  updatePosition (Malformed "unexpected EOF") calm at50 =
  mkOut (Done {| status := StatusBadRequest; body := ErrorText "unexpected EOF" |})
        at50 [].
Proof.
  assert (H : json_Decode (Malformed "unexpected EOF") = inl (Err "unexpected EOF"))
    by reflexivity.
  split; [exact H|].
  exact (updatePosition_rejects_malformed calm at50 _ _ H).
Defined.

Lemma updatePosition_zero_delta_witness :
  wsMutex at50 = false ∧
  incrFault calm = None ∧
  in_int64 (position at50) ∧
  0 ≤ position at50 ∧
  res (updatePosition (Payload {| Delta := 0 |}) calm at50) =
    Done {| status := StatusOK; body := Json {| Position := position at50 |} |} ∧
  rdb (post (updatePosition (Payload {| Delta := 0 |}) calm at50)) = rdb at50.
Proof.
  assert (H1 : wsMutex at50 = false) by (vm_compute; reflexivity).
  assert (H2 : incrFault calm = None) by reflexivity.
  assert (H3 : in_int64 (position at50))
    by (vm_compute; split; [intros H; discriminate H|reflexivity]).
  assert (H4 : 0 ≤ position at50) by (vm_compute; intros H; discriminate H).
  assert (H5 : is_Some (rdb at50 !! "carPosition"))
    by (exists 50; vm_compute; reflexivity).
  destruct (updatePosition_zero_delta calm at50 H1 H2 H3 H4)
    as (Hres & _ & _ & _ & _ & _ & Hsame).
  split; [exact H1|]. split; [exact H2|]. split; [exact H3|]. split; [exact H4|].
  split; [exact Hres|exact (Hsame H5)].
Defined.

Lemma updatePosition_ignores_clamp_failure_witness :
  let env := withSetFault "i/o timeout" calm in
  wsMutex at50 = false ∧
  res (rdb_IncrBy "carPosition" (int64_of_int (-200)) env at50) = Done (inr (-150)) ∧
  -150 < 0 ∧
  setFault env = Some "i/o timeout" ∧
  res (updatePosition (Payload {| Delta := -200 |}) env at50) =
    Done {| status := StatusOK; body := Json {| Position := 0 |} |} ∧
  rdb (post (updatePosition (Payload {| Delta := -200 |}) env at50)) !! "carPosition"
    = Some (-150).
Proof.
  intros env.
  assert (H1 : wsMutex at50 = false) by (vm_compute; reflexivity).
  assert (H2 : res (rdb_IncrBy "carPosition" (int64_of_int (Delta {| Delta := -200 |}))
                               env at50) = Done (inr (-150)))
    by (vm_compute; reflexivity).
  assert (H3 : -150 < 0) by reflexivity.
  assert (H4 : setFault env = Some "i/o timeout") by reflexivity.
  destruct (updatePosition_ignores_clamp_failure env at50 {| Delta := -200 |} (-150)
              "i/o timeout" H1 H2 H3 H4) as (Hres & _ & _ & _ & Hrdb).
  split; [exact H1|]. split; [exact H2|]. split; [exact H3|]. split; [exact H4|].
  split; [exact Hres|exact Hrdb].
Defined.

(** * Further properties of the code *)

(** ** What a run keeps *)

Lemma keeps_ret {A} (R : World → World → Prop) `{!Reflexive R} (a : A) :
  keeps R (mret a).
Proof. intros env w. reflexivity. Qed.

Lemma keeps_bind {A B} (R : World → World → Prop) `{!Transitive R}
    (m : M A) (f : A → M B) :
  keeps R m → (∀ a, keeps R (f a)) → keeps R (m ≫= f).
Proof.
  intros Hm Hf env w. unfold mbind, M_bind, bind.
  specialize (Hm env w). destruct (res (m env w)) as [a| |msg|msg]; cbn [post]; [|exact Hm..].
  etrans; [exact Hm|]. apply Hf.
Qed.

Lemma keeps_forEach {A} (R : World → World → Prop) `{!PreOrder R}
    (l : list A) (body : A → M unit) :
  (∀ x, keeps R (body x)) → keeps R (forEach l body).
Proof.
  intros Hbody. induction l as [|x l IH]; cbn [forEach].
  - apply keeps_ret; apply _.
  - apply keeps_bind; [apply _|apply Hbody|]. intros _. exact IH.
Qed.

(** Solves [keeps R m] for a handler built from the calls that are named. *)
Ltac keeps_step :=
  first
    [ apply keeps_bind; [apply _| |intros ?]
    | apply keeps_forEach; [apply _|intros ?]
    | apply keeps_ret; apply _ ].

Lemma sendOrPrune_same_rdb msg c : keeps same_rdb (sendOrPrune msg c).
Proof.
  intros env w. unfold sendOrPrune, mbind, M_bind, bind, wsClients_has,
    WriteMessage, Close, wsClients_delete. cbn.
  destruct (bool_decide _); cbn; [|done]. by destruct (negb _).
Qed.

Lemma broadcastPosition_same_rdb pos : keeps same_rdb (broadcastPosition pos).
Proof.
  unfold broadcastPosition. keeps_step.
  { intros env w. unfold Lock. by destruct (wsMutex w). }
  keeps_step; [done|]. keeps_step.
  { keeps_step. apply sendOrPrune_same_rdb. }
  intros env w. unfold Unlock. by destruct (wsMutex w).
Qed.

(** Calls that do not write the database, one by one. *)
Ltac unfold_calls :=
  unfold Lock, Unlock, wsClients_range, wsClients_has, WriteMessage, Close,
    wsClients_store, wsClients_delete, go_handleWSRead, go_sendCurrentPosition,
    NextReader, goroutine_exit, rdb_Get_Int, rdb_IncrBy, rdb_Set,
    http_Error, json_Encode, mret, M_ret, ret.

Ltac keeps_call :=
  let env := fresh "env" in let w := fresh "w" in
  intros env w; unfold_calls;
  unfold same_rdb, same_wsClients, no_new_clients, same_other_keys;
  cbn; repeat case_match; cbn; try done.

Ltac keeps_auto :=
  repeat first
    [ keeps_step
    | match goal with |- keeps _ (match ?x with _ => _ end) => destruct x end
    | match goal with |- keeps _ (if ?x then _ else _) => destruct x end ];
  try assumption; try keeps_call.

Lemma getPosition_same_rdb : keeps same_rdb getPosition.
Proof. unfold getPosition. keeps_auto. Qed.

Lemma sendCurrentPosition_same_rdb c : keeps same_rdb (sendCurrentPosition c).
Proof. unfold sendCurrentPosition. keeps_auto. Qed.

Lemma wsHandler_same_rdb up : keeps same_rdb (wsHandler up).
Proof. unfold wsHandler. keeps_auto. Qed.

Lemma readUntilError_same_rdb c incoming : keeps same_rdb (readUntilError c incoming).
Proof. induction incoming as [|r rest IH]; cbn [readUntilError]; keeps_auto. Qed.

Lemma handleWSRead_same_rdb c incoming : keeps same_rdb (handleWSRead c incoming).
Proof.
  unfold handleWSRead. keeps_step; [apply readUntilError_same_rdb|]. keeps_auto.
Qed.

Lemma same_rdb_other_keys w w' : same_rdb w w' → same_other_keys w w'.
Proof. intros H key _. by rewrite H. Qed.

Lemma keeps_weaken {A} (R R' : World → World → Prop) (m : M A) :
  (∀ w w', R w w' → R' w w') → keeps R m → keeps R' m.
Proof. intros HR Hm env w. apply HR, Hm. Qed.

Lemma updatePosition_same_other_keys b : keeps same_other_keys (updatePosition b).
Proof.
  unfold updatePosition. destruct (json_Decode b) as [err|req]; [keeps_auto|].
  keeps_step.
  { intros env w key Hk. unfold rdb_IncrBy. repeat case_match; cbn; try done.
    by rewrite lookup_insert_ne. }
  destruct a as [err|newPos]; [keeps_auto|].
  keeps_step.
  { destruct (newPos <? 0); [|keeps_auto]. keeps_step; [|keeps_auto].
    intros env w key Hk. unfold rdb_Set. case_match; cbn; [done|].
    by rewrite lookup_insert_ne. }
  keeps_step; [|keeps_auto].
  eapply keeps_weaken; [apply same_rdb_other_keys|apply broadcastPosition_same_rdb].
Qed.

(** ** Steps of the server: store, registry and mutex *)

Lemma res_bind_ret {A B} (m : M A) (f : A → B) env w :
  res ((x ← m; mret (f x)) env w) =
  match res (m env w) with
  | Done a => Done (f a)
  | Parked => Parked
  | Fatal msg => Fatal msg
  | Panic msg => Panic msg
  end.
Proof. unfold mbind, M_bind, bind. by destruct (res (m env w)). Qed.

Lemma log_bind_ret {A B} (m : M A) (f : A → B) env w :
  log ((x ← m; mret (f x)) env w) = log (m env w).
Proof.
  unfold mbind, M_bind, bind. destruct (res (m env w)); cbn; [|done..].
  apply app_nil_r.
Qed.

(** X1. The database is written by [POST /position] alone, and only under
    the key [carPosition]: every other step leaves the whole database as it
    was, whatever the state of the mutex and whatever fails. *)
Theorem store_written_by_POST_only a w :
  match a with
  | POST_position _ _ => same_other_keys w (post (exec a w))
  | _ => rdb (post (exec a w)) = rdb w
  end.
Proof.
  destruct a as [env|b env|up env|c env|c incoming env]; cbn [exec].
  - rewrite post_bind_ret. apply getPosition_same_rdb.
  - rewrite post_bind_ret. apply updatePosition_same_other_keys.
  - apply wsHandler_same_rdb.
  - rewrite (post_bind_ret _ (λ _, None)). apply sendCurrentPosition_same_rdb.
  - rewrite (post_bind_ret _ (λ _, None)). apply handleWSRead_same_rdb.
Qed.

Lemma getPosition_returns env w : ∃ resp, res (getPosition env w) = Done resp.
Proof.
  unfold getPosition, mbind, M_bind, bind, rdb_Get_Int. cbn.
  repeat case_match; eauto.
Qed.

Lemma sendCurrentPosition_returns c env w :
  res (sendCurrentPosition c env w) = Done tt.
Proof.
  unfold sendCurrentPosition, mbind, M_bind, bind, rdb_Get_Int, WriteMessage. cbn.
  repeat case_match; eauto.
Qed.

Lemma updatePosition_returns b env w :
  wsMutex w = false → ∃ resp, res (updatePosition b env w) = Done resp.
Proof.
  intros Hfree. destruct b as [err|req].
  - rewrite updatePosition_Malformed. eauto.
  - destruct (rdb_IncrBy_returns "carPosition" (int64_of_int (Delta req)) env w)
      as [[e|v] Hincr].
    + destruct (updatePosition_incr_err env w req e Hincr) as (-> & _). eauto.
    + destruct (updatePosition_incr_ok env w req v Hfree Hincr) as (-> & _). eauto.
Qed.

(** One step from a state whose mutex is free. *)
Lemma exec_free a w :
  wsMutex w = false →
  wsMutex (post (exec a w)) = false ∧
  match res (exec a w) with
  | Done _ => True
  | Parked => ∃ c incoming env, a = Go_handleWSRead c incoming env
  | Fatal _ | Panic _ => False
  end.
Proof.
  intros Hfree. destruct a as [env|b env|up env|c env|c incoming env]; cbn [exec].
  - rewrite post_bind_ret, res_bind_ret, getPosition_post.
    by destruct (getPosition_returns env w) as [resp ->].
  - rewrite post_bind_ret, res_bind_ret.
    destruct (updatePosition_returns b env w Hfree) as [resp ->].
    split; [|done]. by apply updatePosition_registry.
  - destruct up as [[code text err|err]|c]; [by cbn..|].
    destruct (wsHandler_upgraded c env w Hfree) as (-> & _ & _ & -> & _). done.
  - rewrite (post_bind_ret _ (λ _, None)), (res_bind_ret _ (λ _, None)).
    by rewrite sendCurrentPosition_post, sendCurrentPosition_returns.
  - rewrite (post_bind_ret _ (λ _, None)), (res_bind_ret _ (λ _, None)).
    destruct (readUntilError_run c incoming env w) as (_ & [Hexit|Hpark] & _).
    + destruct (handleWSRead_exit c incoming env w Hfree Hexit)
        as (-> & _ & _ & -> & _). done.
    + destruct (handleWSRead_parked c incoming env w Hpark) as (-> & ->). eauto.
Qed.


(** X2. The mutex after a pass.  A pass that returns has released the
    mutex, and so has a pass aborted by the panic of a write: the deferred
    [Unlock] runs, the subscribers the loop had not reached get no write and
    stay as they were.  A pass whose write blocks keeps the mutex: until it
    goes on, no connection can be registered, no read loop can finish its
    cleanup and no other pass can start. *)
Theorem broadcast_unlocks_unless_blocked fate env w pos :
  wsMutex w = false →
  let o := broadcastPosition_full fate pos env w in
  wsMutex (post o) = isParked (res o) ∧
  (res o = Parked →
   ∀ env' c incoming pos',
     res (wsHandler (inr c) env' (post o)) = Parked ∧
     (ReadError ∈ incoming → res (handleWSRead c incoming env' (post o)) = Parked) ∧
     res (broadcastPosition_full fate pos' env' (post o)) = Parked) ∧
  (∀ before c after,
     rangeOrder env (wsClients w) = before ++ c :: after →
     (∀ c', c' ∈ before → fate c' = Returns) →
     fate c = Panics →
     res o = Panic "concurrent write to websocket connection" ∧
     last (log o) = Some EvUnlock ∧
     ∀ c', c' ∈ c :: after →
           (∀ m ok, EvWrite c' m ok ∉ log o) ∧
           wsClients (post o) !! c' = wsClients w !! c').
Proof.
  intros Hfree o.
  destruct (broadcastPosition_full_spec fate env w pos Hfree)
    as (Hres & Hlogeq & _ & Hmx & _ & Hcl & _).
  pose proof (λ e, elem_of_full_log fate env w pos e Hfree) as Hlog.
  fold o in Hres, Hlogeq, Hmx, Hcl, Hlog. cbv zeta in Hcl, Hlog.
  split; [exact Hmx|]. split.
  - intros Hpark env' c incoming pos'. rewrite Hpark in Hmx. cbn in Hmx.
    split; [|split].
    + unfold wsHandler, mbind, M_bind, bind, Lock. by rewrite Hmx.
    + intros Herr. unfold handleWSRead.
      assert (Hexit : res (readUntilError c incoming env' (post o)) = Done tt).
      { apply readUntilError_run. by right. }
      rewrite (bind_Done _ _ _ _ _ Hexit).
      rewrite (proj1 (readUntilError_run c incoming env' (post o))).
      unfold mbind, M_bind, bind, Lock. by rewrite Hmx.
    + unfold broadcastPosition_full, mbind, M_bind, bind, Lock. by rewrite Hmx.
  - intros before c after Hkeys Hbefore Hc.
    destruct (served_prefix fate before c after Hbefore) as [Hsv Hst];
      [congruence|].
    rewrite <- Hkeys in Hsv, Hst.
    assert (Hpanic0 : res o = Panic "concurrent write to websocket connection").
    { rewrite Hres. unfold passResult. by rewrite Hst, Hc. }
    split; [exact Hpanic0|]. split.
    { rewrite Hlogeq, Hpanic0. cbn [isParked]. rewrite app_comm_cons.
      apply last_snoc. }
    intros c' Hc'.
    assert (Hnot : c' ∉ before).
    { pose proof (rangeOrder_NoDup env (wsClients w)) as Hnd.
      rewrite Hkeys in Hnd. apply NoDup_app in Hnd as (_ & Hdisj & _).
      intros Hin. by apply (Hdisj c' Hin). }
    rewrite Hsv in Hlog, Hcl. split.
    + intros m ok Hin. apply Hlog in Hin. naive_solver.
    + rewrite Hcl. by rewrite bool_decide_eq_false_2.
Qed.

(** *** The registry *)

Lemma sendOrPrune_no_new_clients msg c : keeps no_new_clients (sendOrPrune msg c).
Proof.
  intros env w c'. unfold sendOrPrune, mbind, M_bind, bind, wsClients_has,
    WriteMessage, Close, wsClients_delete. cbn.
  destruct (bool_decide _); cbn; [|done]. destruct (negb _); cbn; [done|].
  destruct (decide (c = c')) as [->|Hne].
  - rewrite lookup_delete_eq. by intros [? ?].
  - by rewrite lookup_delete_ne.
Qed.

Lemma same_wsClients_no_new w w' : same_wsClients w w' → no_new_clients w w'.
Proof. intros H c. by rewrite H. Qed.

Lemma broadcastPosition_no_new_clients pos :
  keeps no_new_clients (broadcastPosition pos).
Proof.
  unfold broadcastPosition. keeps_step; [keeps_call|].
  keeps_step; [keeps_call|]. keeps_step; [|keeps_call].
  keeps_step. apply sendOrPrune_no_new_clients.
Qed.

Lemma updatePosition_no_new_clients b : keeps no_new_clients (updatePosition b).
Proof.
  unfold updatePosition. destruct (json_Decode b) as [err|req]; [keeps_auto|].
  keeps_step; [keeps_call|].
  destruct a as [err|newPos]; [keeps_auto|].
  keeps_step; [keeps_auto|].
  keeps_step; [|keeps_auto]. apply broadcastPosition_no_new_clients.
Qed.

Lemma getPosition_same_wsClients : keeps same_wsClients getPosition.
Proof. unfold getPosition. keeps_auto. Qed.

Lemma sendCurrentPosition_same_wsClients c :
  keeps same_wsClients (sendCurrentPosition c).
Proof. unfold sendCurrentPosition. keeps_auto. Qed.

Lemma readUntilError_same_wsClients c incoming :
  keeps same_wsClients (readUntilError c incoming).
Proof. induction incoming as [|r rest IH]; cbn [readUntilError]; keeps_auto. Qed.

Lemma handleWSRead_no_new_clients c incoming :
  keeps no_new_clients (handleWSRead c incoming).
Proof.
  unfold handleWSRead. keeps_step.
  { eapply keeps_weaken; [apply same_wsClients_no_new|].
    apply readUntilError_same_wsClients. }
  keeps_step; [keeps_call|]. keeps_step; [|keeps_auto].
  intros env w c'. cbn. destruct (decide (c = c')) as [->|Hne].
  - rewrite lookup_delete_eq. by intros [? ?].
  - by rewrite lookup_delete_ne.
Qed.

Lemma wsHandler_new_client up env w c :
  is_Some (wsClients (post (wsHandler up env w)) !! c) →
  is_Some (wsClients w !! c) ∨ up = inr c.
Proof.
  destruct up as [[code text err|err]|c']; [cbn; auto..|].
  unfold wsHandler, mbind, M_bind, bind, Lock, Unlock, wsClients_store,
    go_sendCurrentPosition, go_handleWSRead.
  destruct (wsMutex w); cbn; [auto|].
  destruct (decide (c' = c)) as [->|Hne]; [auto|].
  rewrite lookup_insert_ne by done. auto.
Qed.

(** One step and the registry: only the upgrade of [c] registers [c]. *)
Lemma exec_registers a w c :
  is_Some (wsClients (post (exec a w)) !! c) →
  is_Some (wsClients w !! c) ∨ ∃ env, a = WS_connect (inr c) env.
Proof.
  destruct a as [env|b env|up env|c' env|c' incoming env]; cbn [exec].
  - rewrite post_bind_ret. left. by apply (same_wsClients_no_new _ _ (getPosition_same_wsClients env w)).
  - rewrite post_bind_ret. left. by apply (updatePosition_no_new_clients b env w).
  - intros H. apply wsHandler_new_client in H as [H| ->]; eauto.
  - rewrite (post_bind_ret _ (λ _, None)). left.
    by apply (same_wsClients_no_new _ _ (sendCurrentPosition_same_wsClients c' env w)).
  - rewrite (post_bind_ret _ (λ _, None)). left.
    by apply (handleWSRead_no_new_clients c' incoming env w).
Qed.

(** *** Who is written to *)

Lemma getPosition_log env w : ∃ r, log (getPosition env w) = [EvGet "carPosition" r].
Proof.
  unfold getPosition, mbind, M_bind, bind, rdb_Get_Int. cbn.
  repeat case_match; eauto.
Qed.

Lemma sendCurrentPosition_log c env w e :
  e ∈ log (sendCurrentPosition c env w) →
  (∃ r, e = EvGet "carPosition" r) ∨ (∃ m ok, e = EvWrite c m ok).
Proof.
  unfold sendCurrentPosition, mbind, M_bind, bind, rdb_Get_Int, WriteMessage. cbn.
  repeat case_match; cbn; rewrite ?elem_of_cons, ?elem_of_nil; naive_solver.
Qed.

Lemma readUntilError_log c incoming env w e :
  e ∈ log (readUntilError c incoming env w) → ∃ r, e = EvRead c r.
Proof.
  revert e. induction incoming as [|r rest IH]; intros e; cbn [readUntilError];
    unfold mbind, M_bind, bind, NextReader.
  - repeat case_match; cbn; rewrite ?elem_of_cons, ?elem_of_nil; naive_solver.
  - destruct (bool_decide (c ∈ closed w)); cbn;
      [rewrite ?elem_of_cons, ?elem_of_nil; naive_solver|].
    destruct r; cbn; rewrite ?elem_of_cons, ?elem_of_nil; naive_solver.
Qed.

Lemma handleWSRead_log c incoming env w e :
  wsMutex w = false →
  e ∈ log (handleWSRead c incoming env w) →
  (∃ r, e = EvRead c r) ∨ e = EvLock ∨ e = EvUnlock ∨ e = EvClose c.
Proof.
  intros Hfree.
  destruct (readUntilError_run c incoming env w) as (_ & [Hexit|Hpark] & _).
  - destruct (handleWSRead_exit c incoming env w Hfree Hexit) as (_ & _ & _ & _ & _ & _ & ->).
    rewrite elem_of_app, !elem_of_cons, elem_of_nil.
    intros [H|H]; [left; by eapply readUntilError_log|naive_solver].
  - unfold handleWSRead, mbind, M_bind, bind. rewrite Hpark. cbn.
    intros H. left. by eapply readUntilError_log.
Qed.

(** One step from a free mutex writes only to registered connections,
    except that [sendCurrentPosition] writes to its own connection. *)
Lemma exec_writes a w c m ok :
  wsMutex w = false →
  EvWrite c m ok ∈ log (exec a w) →
  is_Some (wsClients w !! c) ∨ ∃ env, a = Go_sendCurrentPosition c env.
Proof.
  intros Hfree. destruct a as [env|b env|up env|c' env|c' incoming env]; cbn [exec].
  - rewrite log_bind_ret. destruct (getPosition_log env w) as [r ->].
    rewrite elem_of_cons, elem_of_nil. naive_solver.
  - rewrite log_bind_ret. destruct b as [err|req].
    + rewrite updatePosition_Malformed. cbn. by rewrite elem_of_nil.
    + destruct (rdb_IncrBy_returns "carPosition" (int64_of_int (Delta req)) env w)
        as [[e|v] Hincr].
      * destruct (updatePosition_incr_err env w req e Hincr) as (_ & -> & _).
        rewrite elem_of_cons, elem_of_nil. naive_solver.
      * rewrite (elem_of_update_log env w req v _ Hfree Hincr). naive_solver.
  - destruct up as [[code text err|err]|c'']; [cbn; by rewrite elem_of_nil..|].
    destruct (wsHandler_upgraded c'' env w Hfree) as (_ & _ & _ & _ & _ & _ & ->).
    rewrite !elem_of_cons, elem_of_nil. naive_solver.
  - rewrite (log_bind_ret _ (λ _, None)). intros H.
    apply sendCurrentPosition_log in H. naive_solver.
  - rewrite (log_bind_ret _ (λ _, None)). intros H.
    apply handleWSRead_log in H; naive_solver.
Qed.

(** X3. No message after removal.  Once a connection is out of the
    registry, no later step writes to it and it never comes back, as long
    as it is not upgraded anew and no [sendCurrentPosition] for it is still
    pending. *)
Theorem no_write_after_removal c acts w :
  wsMutex w = false →
  wsClients w !! c = None →
  Forall (λ a, introduces c a = false) acts →
  (∀ m ok, EvWrite c m ok ∉ events (outs acts w)) ∧
  wsClients (endState acts w) !! c = None.
Proof.
  intros Hfree Hout Hacts. revert w Hfree Hout.
  induction Hacts as [|a acts Ha _ IH]; intros w Hfree Hout.
  - split; [|done]. intros m ok H. by apply elem_of_nil in H.
  - assert (Hout' : wsClients (post (exec a w)) !! c = None).
    { destruct (wsClients (post (exec a w)) !! c) eqn:E; [|done].
      destruct (exec_registers a w c) as [[x Hx]|[env ->]]; [eauto|congruence|].
      cbn in Ha. by rewrite bool_decide_eq_true_2 in Ha. }
    destruct (IH _ (proj1 (exec_free a w Hfree)) Hout') as [IHw IHr].
    rewrite endState_cons. split; [|exact IHr].
    intros m ok. unfold events. cbn [outs flat_map]. rewrite elem_of_app.
    intros [H|H]; [|by apply (IHw m ok)].
    destruct (exec_writes a w c m ok Hfree H) as [[x Hx]|[env ->]]; [congruence|].
    cbn in Ha. by rewrite bool_decide_eq_true_2 in Ha.
Qed.

(** ** Invariants of the reachable states *)

Lemma in_int64_0 : in_int64 0.
Proof. unfold in_int64. change (2 ^ 63) with 9223372036854775808. lia. Qed.

Lemma reachable_tidy w : reachable w → tidy w.
Proof.
  induction 1 as [|a w Hw [Hcl Hdb] Hen].
  - split; [intros c Hc; by apply not_elem_of_empty in Hc|].
    intros key v Hv. cbn in Hv. by rewrite lookup_empty in Hv.
  - destruct (reachable_invariant w Hw) as [Hfree Hinv].
    destruct a as [env|b env|up env|c env|c incoming env]; cbn [exec].
    + rewrite post_bind_ret, getPosition_post. by split.
    + rewrite post_bind_ret. destruct b as [err|req].
      { rewrite updatePosition_Malformed. by split. }
      destruct (rdb_IncrBy_returns "carPosition" (int64_of_int (Delta req)) env w)
        as [[e|v] Hincr].
      { destruct (updatePosition_incr_err env w req e Hincr) as (_ & _ & ->).
        by split. }
      destruct (updatePosition_incr_ok env w req v Hfree Hincr)
        as (_ & _ & Hrdb & _ & Hrl & Hreg & Hclosed).
      destruct (rdb_IncrBy_inr _ _ _ _ _ Hincr) as (_ & _ & Hrange & _).
      split.
      * intros c Hc. rewrite Hreg, Hrl. apply Hclosed in Hc as [Hc|[Hc Hf]].
        -- destruct (Hcl c Hc) as [-> ?]. split; [by destruct (writeFails env w c)|done].
        -- rewrite Hf. split; [done|]. rewrite (Hinv c Hc). eauto.
      * intros key x. rewrite Hrdb.
        destruct (_ && _); rewrite ?lookup_insert;
          repeat case_decide; try (intros [= <-]; done || apply in_int64_0);
          apply Hdb.
    + destruct up as [[code text err|err]|c]; [by split..|]. cbn in Hen.
      destruct (wsHandler_upgraded c env w Hfree) as (_ & Hrdb & Hreg & _ & Hclosed & Hrl & _).
      split.
      * intros c'. rewrite Hclosed, Hreg, Hrl. intros Hc'.
        destruct (Hcl c' Hc') as [Hnone [x Hx]].
        assert (c ≠ c') by congruence.
        rewrite !lookup_insert_ne by done. eauto.
      * intros key x. rewrite Hrdb. apply Hdb.
    + rewrite (post_bind_ret _ (λ _, None)), sendCurrentPosition_post. by split.
    + rewrite (post_bind_ret _ (λ _, None)).
      destruct (readUntilError_run c incoming env w) as (_ & [Hexit|Hpark] & _).
      * destruct (handleWSRead_exit c incoming env w Hfree Hexit)
          as (_ & Hrdb & Hreg & _ & Hclosed & Hrl & _).
        split.
        -- intros c'. rewrite Hclosed, Hreg, Hrl.
           destruct (decide (c = c')) as [->|Hne].
           ++ rewrite lookup_delete_eq, lookup_insert_eq. eauto.
           ++ rewrite lookup_delete_ne, lookup_insert_ne by done.
              intros Hc'. apply Hcl. set_solver.
        -- intros key x. rewrite Hrdb. apply Hdb.
      * destruct (handleWSRead_parked c incoming env w Hpark) as (_ & ->). by split.
Qed.

(** X4. In every reachable state a registered connection has not been
    closed by the server, so a broadcast write to it fails only when its
    socket refuses the write. *)
Theorem registered_connections_are_open w c :
  reachable w →
  is_Some (wsClients w !! c) →
  (c ∉ closed w) ∧ (∀ env, writeFails env w c = writeFault env c).
Proof.
  intros Hw [x Hx]. destruct (reachable_tidy w Hw) as [Hcl _].
  assert (Hc : c ∉ closed w).
  { intros Hc. destruct (Hcl c Hc) as [Hnone _]. congruence. }
  split; [exact Hc|]. intros env. unfold writeFails.
  rewrite bool_decide_eq_false_2 by done. apply orb_false_r.
Qed.

(** X5. In every reachable state the stored position is a 64-bit integer, so
    a query whose store read does not fail in transport answers 200 with
    the stored position (0 for an absent key) and changes nothing. *)
Theorem getPosition_answers_stored_position w env :
  reachable w →
  getFault env = None →
  res (getPosition env w) =
    Done {| status := StatusOK; body := Json {| Position := position w |} |} ∧
  post (getPosition env w) = w.
Proof.
  intros Hw Hget. destruct (reachable_tidy w Hw) as [_ Hdb].
  split; [|apply getPosition_post]. unfold position.
  destruct (rdb w !! "carPosition") as [v|] eqn:Hv.
  - by rewrite (getPosition_present env w v Hget Hv (Hdb _ _ Hv)).
  - by rewrite (getPosition_absent env w Hget Hv).
Qed.

(** X6. [GET /position] only reads.  Whatever the store does, the handler
    returns, leaves the process state as it was, and its one external call
    is the read of [carPosition]; when that read fails in transport the
    answer is 500 with the error's text. *)
Theorem getPosition_only_reads env w :
  post (getPosition env w) = w ∧
  (∃ r, log (getPosition env w) = [EvGet "carPosition" r]) ∧
  (∃ resp, res (getPosition env w) = Done resp) ∧
  match getFault env with
  | Some msg =>
      res (getPosition env w) =
      Done {| status := StatusInternalServerError; body := ErrorText msg |}
  | None => True
  end.
Proof.
  split; [apply getPosition_post|]. split; [apply getPosition_log|].
  split; [apply getPosition_returns|].
  unfold getPosition, mbind, M_bind, bind, rdb_Get_Int.
  by destruct (getFault env).
Qed.

(** ** Connections *)

(** X7. [wsHandler] registers exactly on a successful upgrade.  From a free
    mutex, the registry afterwards holds what it held plus the upgraded
    connection, and nothing more after a failed upgrade.  A request that
    [Upgrade] refused keeps the status [Upgrade] answered: the 500 of the
    handler is not sent, its error text follows the text of [Upgrade].
    After a failure on a connection already taken over nothing is answered.
    The handler writes to no socket, closes nothing and leaves the store
    alone. *)
Theorem wsHandler_registers_on_success up env w :
  wsMutex w = false →
  let o := wsHandler up env w in
  (∀ c, is_Some (wsClients (post o) !! c) ↔ is_Some (wsClients w !! c) ∨ up = inr c) ∧
  (match up with
   | inl (Refused code text err) =>
       res o = Done (Some {| status := code;
                             body := ErrorText (text +:+ newline +:+ Error err) |})
   | inl (Broken err) => res o = Done None
   | inr c => res o = Done None ∧ readLoop (post o) !! c = Some Running
   end) ∧
  rdb (post o) = rdb w ∧
  closed (post o) = closed w ∧
  wsMutex (post o) = false ∧
  (∀ c m ok, EvWrite c m ok ∉ log o).
Proof.
  intros Hfree o. destruct up as [[code text err|err]|c].
  - cbn. split; [naive_solver|]. repeat split; try done.
    intros c m ok H. by apply elem_of_nil in H.
  - cbn. split; [naive_solver|]. repeat split; try done.
    intros c m ok H. by apply elem_of_nil in H.
  - destruct (wsHandler_upgraded c env w Hfree)
      as (Hres & Hrdb & Hreg & Hmx & Hcl & Hrl & Hlog).
    fold o in Hres, Hrdb, Hreg, Hmx, Hcl, Hrl, Hlog.
    split.
    { intros c'. rewrite Hreg. destruct (decide (c = c')) as [->|Hne].
      - rewrite lookup_insert_eq. naive_solver.
      - rewrite lookup_insert_ne by done. naive_solver. }
    rewrite Hrl, lookup_insert_eq, Hlog. repeat split; try done.
    intros c' m ok. rewrite !elem_of_cons, elem_of_nil. naive_solver.
Qed.



(** X25. [sendCurrentPosition] writes to its connection without [wsMutex].
    It neither takes the mutex nor waits for it: whether the mutex is free
    or held, by a pass of [broadcastPosition] say, the run makes the same
    store read and the same socket write.  The mutex therefore does not keep
    this write apart from the write of a pass to the same connection. *)
Theorem sendCurrentPosition_takes_no_lock c env w held :
  let o := sendCurrentPosition c env w in
  let o' := sendCurrentPosition c env (set_wsMutex held w) in
  res o' = res o ∧
  log o' = log o ∧
  Forall (λ e, isLockEvent e = false) (log o) ∧
  (∀ p, snapshotOf (res (getPosition env w)) = Some p →
        EvWrite c p (negb (writeFails env w c)) ∈ log o).
Proof.
  unfold sendCurrentPosition, getPosition, mbind, M_bind, bind, rdb_Get_Int,
    WriteMessage, writeFails.
  cbn [res post log rdb closed set_wsMutex].
  destruct (getFault env) as [msg|]; cbn.
  { repeat split; [by repeat constructor|]. intros p [=]. }
  destruct (rdb w !! "carPosition") as [v|]; cbn.
  - destruct (in_int64b v); cbn.
    + repeat split; [by repeat constructor|].
      intros p [= <-]. rewrite !elem_of_cons. auto.
    + repeat split; [by repeat constructor|]. intros p [=].
  - repeat split; [by repeat constructor|].
    intros p [= <-]. rewrite !elem_of_cons. auto.
Qed.

(** *** The read loop *)

Lemma readUntilError_frames c incoming env w :
  c ∉ closed w →
  ReadError ∉ incoming →
  readUntilError c incoming env w =
  mkOut Parked w ((λ _, EvRead c Frame) <$> incoming).
Proof.
  intros Hc. induction incoming as [|r rest IH]; intros Hno;
    cbn [readUntilError]; unfold mbind, M_bind, bind, NextReader;
    rewrite bool_decide_eq_false_2 by done.
  - reflexivity.
  - destruct r; [|exfalso; apply Hno; left].
    cbn. rewrite IH; [done|]. intros H. apply Hno. by right.
Qed.

Lemma readUntilError_closed c incoming env w :
  c ∈ closed w →
  readUntilError c incoming env w = mkOut (Done tt) w [EvRead c ReadError].
Proof.
  intros Hc. destruct incoming as [|r rest]; cbn [readUntilError];
    unfold mbind, M_bind, bind, NextReader;
    by rewrite bool_decide_eq_true_2 by done.
Qed.

(** X10. What the client sends is read and dropped.  On a connection the
    server has not closed, as long as no read fails the read loop consumes
    every frame, stays parked in the next read, and leaves the process
    state (registry included) as it was. *)
Theorem handleWSRead_ignores_frames c incoming env w :
  c ∉ closed w →
  ReadError ∉ incoming →
  handleWSRead c incoming env w =
  mkOut Parked w ((λ _, EvRead c Frame) <$> incoming).
Proof.
  intros Hc Hno. unfold handleWSRead, mbind, M_bind, bind.
  by rewrite readUntilError_frames.
Qed.

(** X11. A connection pruned by a broadcast ends its own read loop.  After a
    pass whose write to a registered connection [c] failed, the read loop
    of [c] returns whatever the peer does (its first read fails because the
    connection is closed); its deferred removal finds [c] already gone and
    leaves the registry as the broadcast left it. *)
Theorem pruned_reader_terminates c pos env w incoming env' :
  wsMutex w = false →
  is_Some (wsClients w !! c) →
  writeFails env w c = true →
  let w1 := post (broadcastPosition pos env w) in
  let o := handleWSRead c incoming env' w1 in
  res o = Done tt ∧
  log o = [EvRead c ReadError; EvLock; EvUnlock; EvClose c] ∧
  wsClients (post o) = wsClients w1 ∧
  closed (post o) = closed w1 ∧
  readLoop (post o) !! c = Some Terminated.
Proof.
  intros Hfree Hreg Hfail w1 o.
  destruct (broadcastPosition_spec env w pos Hfree)
    as (_ & _ & _ & Hmx & _ & Hcl & Hcs).
  fold w1 in Hmx, Hcl, Hcs.
  assert (Hc : c ∈ closed w1) by (apply Hcs; auto).
  assert (Hgone : wsClients w1 !! c = None) by (by rewrite Hcl, Hfail).
  pose proof (readUntilError_closed c incoming env' w1 Hc) as Hloop.
  destruct (handleWSRead_exit c incoming env' w1 Hmx)
    as (Hres & _ & Hreg' & _ & Hclosed & Hrl & Hlog).
  { by rewrite Hloop. }
  fold o in Hres, Hreg', Hclosed, Hrl, Hlog.
  rewrite Hloop in Hlog. rewrite Hreg', Hclosed, Hrl, Hlog.
  split; [exact Hres|]. split; [done|]. split; [by apply delete_id|].
  split; [set_solver|]. apply lookup_insert_eq.
Qed.

(** ** More on the fan-out pass *)


Lemma writesTo_app c evs1 evs2 :
  writesTo c (evs1 ++ evs2) = (writesTo c evs1 + writesTo c evs2)%nat.
Proof. unfold writesTo. by rewrite List.filter_app, length_app. Qed.

Lemma writesTo_fanout env w msg c l :
  NoDup l →
  writesTo c (flat_map (fanout_events env w msg) l) =
  if bool_decide (c ∈ l) then 1%nat else 0%nat.
Proof.
  induction 1 as [|a l Ha Hl IH]; [done|].
  cbn [flat_map]. rewrite writesTo_app, IH.
  assert (Hone : writesTo c (fanout_events env w msg a) =
                 if bool_decide (a = c) then 1%nat else 0%nat).
  { unfold fanout_events, writesTo.
    destruct (writeFails env w a); cbn; by destruct (bool_decide (a = c)). }
  rewrite Hone. destruct (decide (a = c)) as [->|Hne].
  - rewrite bool_decide_eq_true_2 by done.
    rewrite (bool_decide_eq_false_2 (c ∈ l)) by done.
    by rewrite bool_decide_eq_true_2 by left.
  - rewrite bool_decide_eq_false_2 by done. cbn.
    assert (Heq : bool_decide (c ∈ a :: l) = bool_decide (c ∈ l)).
    { apply bool_decide_ext. rewrite elem_of_cons. naive_solver. }
    by rewrite Heq.
Qed.


(** X13. In one pass nobody is written to twice and nobody outside the
    registry is written to at all, whatever the writes do; when every write
    returns, every registered connection is written to exactly once. *)
Theorem one_write_per_subscriber fate env w pos c :
  wsMutex w = false →
  let o := broadcastPosition_full fate pos env w in
  (writesTo c (log o) ≤ 1)%nat ∧
  (wsClients w !! c = None → writesTo c (log o) = 0%nat) ∧
  ((∀ c', is_Some (wsClients w !! c') → fate c' = Returns) →
   is_Some (wsClients w !! c) → writesTo c (log o) = 1%nat).
Proof.
  intros Hfree o.
  destruct (broadcastPosition_full_spec fate env w pos Hfree) as (_ & Hlog & _).
  fold o in Hlog. cbv zeta in Hlog.
  set (keys := rangeOrder env (wsClients w)) in *.
  assert (Hcount : writesTo c (log o) =
                   if bool_decide (c ∈ served fate keys) then 1%nat else 0%nat).
  { rewrite Hlog. change (EvLock :: ?l) with ([EvLock] ++ l).
    rewrite !writesTo_app, writesTo_fanout by apply served_NoDup, rangeOrder_NoDup.
    cbn. destruct (isParked (res o)); cbn; lia. }
  rewrite Hcount. split; [case_bool_decide; lia|]. split.
  - intros Hnone. rewrite bool_decide_eq_false_2; [done|].
    intros Hin. apply served_elem_of in Hin as [Hin _].
    apply elem_of_rangeOrder in Hin as [x Hx]. congruence.
  - intros Hall Hc. destruct (served_all fate keys) as [-> _].
    { intros c' Hc'. apply Hall. by apply elem_of_rangeOrder in Hc'. }
    rewrite bool_decide_eq_true_2; [done|]. by apply elem_of_rangeOrder.
Qed.


(** [updatePosition] is [updatePosition_full] when every write returns. *)
Lemma updatePosition_full_allReturn b env w :
  updatePosition_full allReturn b env w = updatePosition b env w.
Proof.
  unfold updatePosition_full, updatePosition.
  destruct (json_Decode b) as [err|req]; [done|].
  unfold mbind, M_bind, bind.
  destruct (res (rdb_IncrBy _ _ env w)) as [[e|newPos]| | |]; try done.
  rewrite !clamp_run. cbn [res post log].
  by rewrite !broadcastPosition_full_allReturn.
Qed.

(** A run of [updatePosition_full] whose increment succeeded with [v]. *)
Lemma updatePosition_full_incr_ok fate env w req v :
  wsMutex w = false →
  res (rdb_IncrBy "carPosition" (int64_of_int (Delta req)) env w) = Done (inr v) →
  let o := updatePosition_full fate (Payload req) env w in
  let pass := passResult fate (rangeOrder env (wsClients w)) in
  res o =
    match pass with
    | Done _ => Done {| status := StatusOK; body := Json {| Position := Z.max 0 v |} |}
    | Parked => Parked
    | Fatal msg => Fatal msg
    | Panic msg => Panic msg
    end ∧
  rdb (post o) =
    (if (v <? 0) && bool_decide (setFault env = None)
     then <["carPosition" := 0]> (<["carPosition" := v]> (rdb w))
     else <["carPosition" := v]> (rdb w)) ∧
  wsMutex (post o) = isParked pass.
Proof.
  intros Hfree Hincr.
  destruct (rdb_IncrBy_inr _ _ _ _ _ Hincr) as (_ & _ & Hrange & Heq).
  assert (Hconv : int_of_int64 (Z.max 0 v) = Z.max 0 v).
  { apply wrap64_id, in_int64_max0, Hrange. }
  unfold updatePosition_full. cbn [json_Decode].
  rewrite (bind_Done _ _ _ _ _ Hincr). rewrite Heq. cbn [res post log].
  set (w1 := set_rdb (insert "carPosition" v) w).
  erewrite bind_Done by (rewrite clamp_run; reflexivity).
  rewrite !clamp_run. cbn [res post log]. rewrite Hconv.
  set (w2 := if (v <? 0) && bool_decide (setFault env = None)
             then set_rdb (insert "carPosition" 0) w1 else w1).
  assert (Hw2 : wsMutex w2 = false ∧ wsClients w2 = wsClients w).
  { unfold w2. by destruct (_ && _). }
  destruct Hw2 as (Hfree2 & Hcl2).
  destruct (broadcastPosition_full_spec fate env w2 (Z.max 0 v) Hfree2)
    as (Hr & _ & Hrdb & Hmx & _).
  rewrite Hcl2 in Hr. rewrite Hr in Hmx.
  unfold mbind, M_bind, bind. rewrite Hr.
  destruct (passResult fate (rangeOrder env (wsClients w))) as [[]| |m|m];
    cbn [res post log json_Encode ret isParked] in *.
  all: split; [done|]. all: rewrite Hrdb, Hmx.
  all: split; [unfold w2; by destruct (_ && _)|done].
Qed.

(** X26. An update whose broadcast is stopped is a partial update.  Once
    the increment has returned [v], the store holds the new position (0 after
    a clamp write that succeeded, [v] otherwise) however the pass ends.  The
    caller is answered when every write of the pass returns, and then the
    run is the run of [updatePosition]; when a write blocks or panics the
    caller gets no answer to an update that is in the store already, and
    after a blocked write the handler still holds the mutex. *)
Theorem stopped_broadcast_leaves_partial_update fate env w req v :
  wsMutex w = false →
  res (rdb_IncrBy "carPosition" (int64_of_int (Delta req)) env w) = Done (inr v) →
  let o := updatePosition_full fate (Payload req) env w in
  rdb (post o) !! "carPosition" =
    Some (if (v <? 0) && bool_decide (setFault env = None) then 0 else v) ∧
  rdb (post o) = rdb (post (updatePosition (Payload req) env w)) ∧
  ((∀ c, is_Some (wsClients w !! c) → fate c = Returns) →
   res o = Done {| status := StatusOK; body := Json {| Position := Z.max 0 v |} |}) ∧
  (∀ before c after,
     rangeOrder env (wsClients w) = before ++ c :: after →
     (∀ c', c' ∈ before → fate c' = Returns) →
     (fate c = Blocks → res o = Parked ∧ wsMutex (post o) = true) ∧
     (fate c = Panics →
      res o = Panic "concurrent write to websocket connection" ∧
      wsMutex (post o) = false)).
Proof.
  intros Hfree Hincr o.
  destruct (updatePosition_full_incr_ok fate env w req v Hfree Hincr)
    as (Hres & Hrdb & Hmx).
  destruct (updatePosition_incr_ok env w req v Hfree Hincr)
    as (_ & _ & Hrdb0 & _).
  fold o in Hres, Hrdb, Hmx. cbv zeta in Hres, Hmx.
  split; [|split; [|split]].
  - rewrite Hrdb. destruct (_ && _); by rewrite lookup_insert_eq.
  - by rewrite Hrdb, Hrdb0.
  - intros Hall.
    destruct (served_all fate (rangeOrder env (wsClients w))) as [_ Hst].
    { intros c Hc. apply Hall. by apply elem_of_rangeOrder in Hc. }
    rewrite Hres. unfold passResult. by rewrite Hst.
  - intros before c after Hkeys Hbefore.
    assert (Hst : fate c ≠ Returns →
                  stopsAt fate (rangeOrder env (wsClients w)) = Some c).
    { intros Hc. rewrite Hkeys. by apply served_prefix. }
    unfold passResult in Hres, Hmx.
    split; intros Hc; rewrite Hst in Hres, Hmx by congruence;
      rewrite Hc in Hres, Hmx; done.
Qed.


(** ** The stored position along any schedule *)

Lemma position_same_rdb w w' : rdb w' = rdb w → position w' = position w.
Proof. unfold position. by intros ->. Qed.

Lemma exec_nonneg a w :
  wsMutex w = false →
  existsb isFailedSet (log (exec a w)) = false →
  0 ≤ position w → 0 ≤ position (post (exec a w)).
Proof.
  intros Hfree Hno Hpos.
  destruct a as [env|b env|up env|c env|c incoming env].
  - rewrite (position_same_rdb w); [done|].
    cbn [exec]. rewrite post_bind_ret. apply getPosition_same_rdb.
  - destruct b as [err|[d]].
    + cbn [exec]. by rewrite post_bind_ret, updatePosition_Malformed.
    + by apply (submit_step (d, env) w Hfree).
  - rewrite (position_same_rdb w); [done|]. apply wsHandler_same_rdb.
  - rewrite (position_same_rdb w); [done|].
    cbn [exec]. rewrite (post_bind_ret _ (λ _, None)).
    apply sendCurrentPosition_same_rdb.
  - rewrite (position_same_rdb w); [done|].
    cbn [exec]. rewrite (post_bind_ret _ (λ _, None)).
    apply handleWSRead_same_rdb.
Qed.

(** X16. The stored position stays at or above 0.  Along every schedule of
    requests, upgrades and goroutine steps started with a free mutex and a
    stored position that is not negative, the stored position is not
    negative at the end unless some clamp write failed on the way. *)
Theorem position_stays_nonnegative acts w :
  wsMutex w = false →
  0 ≤ position w →
  existsb isFailedSet (events (outs acts w)) = false →
  0 ≤ position (endState acts w).
Proof.
  revert w. induction acts as [|a acts IH]; intros w Hfree Hpos Hno; [done|].
  unfold events in Hno. cbn [outs flat_map] in Hno.
  rewrite existsb_app in Hno. apply orb_false_iff in Hno as [Ha Hrest].
  rewrite endState_cons. apply IH.
  - by apply exec_free.
  - by apply exec_nonneg.
  - exact Hrest.
Qed.

(** ** How submissions compose *)

Lemma sumZ_perm ds ds' : ds ≡ₚ ds' → sumZ ds = sumZ ds'.
Proof.
  unfold sumZ. induction 1 as [|x l l' _ IH|x y l|l l' l'' _ IH1 _ IH2]; cbn;
    [done|by rewrite IH|lia|by rewrite IH1].
Qed.

(** X17. Submissions that never drive the increment below 0 commute.  Two
    runs that serve the same submissions in different orders from the same
    state, in each of which every increment returned a result that is not
    negative, end with the same stored position. *)
Theorem unclamped_submissions_commute subs subs' w :
  wsMutex w = false →
  subs ≡ₚ subs' →
  Forall (λ s, in_int64 s.1) subs →
  forallb incrReturnedNonneg (events (outs (submit <$> subs) w)) = true →
  forallb incrReturnedNonneg (events (outs (submit <$> subs') w)) = true →
  position (endState (submit <$> subs) w) = position (endState (submit <$> subs') w).
Proof.
  intros Hfree Hperm Hds Hnn Hnn'.
  assert (Hds' : Forall (λ s : Z * Env, in_int64 s.1) subs') by (by rewrite <- Hperm).
  destruct (submissions_run subs w Hfree) as (H1 & _).
  destruct (submissions_run subs' w Hfree) as (H1' & _).
  rewrite H1, H1' by done. f_equal. apply sumZ_perm. by rewrite Hperm.
Qed.

(** X18. Going back by [d] and forward by [d] again.  When both increments
    return and no clamp write fails, the stored position [p ≥ 0] ends at
    [max 0 (p - d) + d]: back at [p] when [p ≥ d], and at [d], ahead of
    where it started, when the way back was clamped at 0. *)
Theorem back_and_forth d env1 env2 w :
  wsMutex w = false →
  0 ≤ d →
  in_int64 d →
  let acts := submit <$> [(- d, env1); (d, env2)] in
  forallb incrReturned (events (outs acts w)) = true →
  existsb isFailedSet (events (outs acts w)) = false →
  position (endState acts w) = Z.max 0 (position w - d) + d.
Proof.
  intros Hfree Hd Hrange acts Hret Hno.
  assert (Hneg : in_int64 (- d)).
  { unfold in_int64 in *. change (2 ^ 63) with 9223372036854775808 in *. lia. }
  unfold acts, events in *. cbn [fmap list_fmap outs flat_map] in Hret, Hno.
  rewrite app_nil_r in Hret, Hno.
  rewrite forallb_app in Hret. apply andb_true_iff in Hret as [Hret1 Hret2].
  rewrite existsb_app in Hno. apply orb_false_iff in Hno as [Hno1 Hno2].
  cbn [fmap list_fmap endState foldl].
  pose proof (submit_step_clamped (- d, env1) w Hfree Hneg Hret1 Hno1) as Hp1.
  pose proof (submit_step_clamped (d, env2) _
                (proj1 (exec_free (submit (- d, env1)) w Hfree)) Hrange Hret2 Hno2)
    as Hp2.
  rewrite Hp2, Hp1. cbn [fst]. lia.
Qed.

(** ** The CORS middleware *)

Lemma cors_Header w r (next : Handler) :
  let w' := Header_Set "Access-Control-Max-Age" "3600"
              (Header_Set "Access-Control-Allow-Headers" "Content-Type, Authorization"
                 (Header_Set "Access-Control-Allow-Methods" "GET, POST, OPTIONS"
                    (Header_Set "Access-Control-Allow-Origin" "*" w))) in
  corsMiddleware next w r =
  if decide (Method r = MethodOptions) then mret (WriteHeader StatusOK w')
  else next w' r.
Proof. reflexivity. Qed.

(** X19. What the middleware does with a request.  A preflight ([OPTIONS])
    request is answered without running the wrapped handler: no external
    call, process state unchanged, status 200 on a writer that has sent
    none.  Any other request goes to the wrapped handler.  In both cases
    the writer then carries the four CORS headers with the middleware's
    values, whatever it carried under those names before, and every other
    header as it was. *)
Theorem corsMiddleware_by_method (next : Handler) w r env wd :
  ∃ w',
    (∀ k v, (k, v) ∈ corsHeaders → Header w' !! k = Some v) ∧
    (∀ k, k ∉ corsHeaders.*1 → Header w' !! k = Header w !! k) ∧
    wroteHeader w' = wroteHeader w ∧
    corsMiddleware next w r env wd =
    if decide (Method r = MethodOptions)
    then mkOut (Done (WriteHeader StatusOK w')) wd []
    else next w' r env wd.
Proof.
  eexists. split; [|split; [|split]]; [| | |rewrite cors_Header; by case_decide].
  - intros k v Hkv. cbn. unfold corsHeaders in Hkv.
    rewrite !elem_of_cons, elem_of_nil in Hkv.
    destruct Hkv as [[= -> ->]|[[= -> ->]|[[= -> ->]|[[= -> ->]|[]]]]];
      by simplify_map_eq.
  - intros k Hk. cbn in *. rewrite !not_elem_of_cons in Hk.
    destruct Hk as (? & ? & ? & ? & _). by rewrite !lookup_insert_ne.
  - reflexivity.
Qed.

(** X20. Wrapping twice is wrapping once: the headers are set to the same
    values again and a preflight is answered by the outer layer. *)
Theorem corsMiddleware_idempotent (next : Handler) w r env wd :
  corsMiddleware (corsMiddleware next) w r env wd = corsMiddleware next w r env wd.
Proof.
  rewrite !cors_Header. case_decide; [done|].
  f_equal. unfold Header_Set. cbn. f_equal.
  apply map_eq. intros k.
  rewrite !lookup_insert. repeat case_decide; done.
Qed.

(** ** Connect, then disconnect *)

(** X21. A connection that comes and goes leaves the registry as it found
    it.  After the upgrade of a connection [c] that was not registered, and
    the run of its read loop up to a read error, the registry is what it
    was before the upgrade, [c] is closed and its read loop has ended. *)
Theorem connect_then_disconnect c env env' w incoming :
  wsMutex w = false →
  wsClients w !! c = None →
  ReadError ∈ incoming →
  let w1 := post (wsHandler (inr c) env w) in
  let o := handleWSRead c incoming env' w1 in
  res o = Done tt ∧
  wsClients (post o) = wsClients w ∧
  c ∈ closed (post o) ∧
  readLoop (post o) !! c = Some Terminated ∧
  rdb (post o) = rdb w.
Proof.
  intros Hfree Hnew Herr w1 o.
  destruct (wsHandler_upgraded c env w Hfree) as (_ & Hrdb & Hreg & Hmx & _).
  fold w1 in Hrdb, Hreg, Hmx.
  assert (Hexit : res (readUntilError c incoming env' w1) = Done tt).
  { apply readUntilError_run. by right. }
  destruct (handleWSRead_exit c incoming env' w1 Hmx Hexit)
    as (Hres & Hrdb' & Hreg' & _ & Hcl & Hrl & _).
  fold o in Hres, Hrdb', Hreg', Hcl, Hrl.
  rewrite Hreg', Hreg, Hcl, Hrl, Hrdb', Hrdb.
  split; [exact Hres|]. split; [by apply delete_insert_id|].
  split; [set_solver|]. split; [apply lookup_insert_eq|done].
Qed.

(** ** Two updates that interleave *)

Lemma updatePosition_in_two_steps req :
  updatePosition (Payload req) =
  (r ← rdb_IncrBy "carPosition" (int64_of_int (Delta req));
   match r with
   | inl err => http_Error (Error err) StatusInternalServerError
   | inr newPos => updatePosition_rest newPos
   end).
Proof. reflexivity. Qed.

Lemma updatePosition_rest_run v env w :
  wsMutex w = false →
  in_int64 v →
  res (updatePosition_rest v env w) =
    Done {| status := StatusOK; body := Json {| Position := Z.max 0 v |} |} ∧
  rdb (post (updatePosition_rest v env w)) =
    (if (v <? 0) && bool_decide (setFault env = None)
     then <["carPosition" := 0]> (rdb w) else rdb w).
Proof.
  intros Hfree Hrange. unfold updatePosition_rest.
  assert (Hconv : int_of_int64 (Z.max 0 v) = Z.max 0 v).
  { apply wrap64_id, in_int64_max0, Hrange. }
  erewrite bind_Done by (rewrite clamp_run; reflexivity).
  rewrite !clamp_run. cbn [res post log]. rewrite Hconv.
  set (w2 := if (v <? 0) && bool_decide (setFault env = None)
             then set_rdb (insert "carPosition" 0) w else w).
  assert (Hfree2 : wsMutex w2 = false) by (unfold w2; by destruct (_ && _)).
  destruct (broadcastPosition_spec env w2 (Z.max 0 v) Hfree2)
    as (Hr & _ & Hrdb & _).
  rewrite (bind_Done _ _ _ _ _ Hr). cbn [res post log json_Encode ret].
  rewrite Hrdb. split; [done|]. unfold w2. by destruct (_ && _).
Qed.

(** X22. An increment can be lost to a concurrent clamp.  Request A's
    increment returns a negative [vA]; before A goes on, request B runs as a
    whole and its increment returns [vB]; then A clamps.  With no clamp
    write failing, B is answered [max 0 vB], A is answered 0, and the store
    ends at 0 whatever B added. *)
Theorem concurrent_clamp_erases_increment reqA reqB envA envB w vA vB :
  wsMutex w = false →
  let oA := rdb_IncrBy "carPosition" (int64_of_int (Delta reqA)) envA w in
  res oA = Done (inr vA) →
  vA < 0 →
  setFault envA = None →
  let oB := updatePosition (Payload reqB) envB (post oA) in
  res (rdb_IncrBy "carPosition" (int64_of_int (Delta reqB)) envB (post oA))
    = Done (inr vB) →
  let oA' := updatePosition_rest vA envA (post oB) in
  res oB = Done {| status := StatusOK; body := Json {| Position := Z.max 0 vB |} |} ∧
  res oA' = Done {| status := StatusOK; body := Json {| Position := 0 |} |} ∧
  position (post oA') = 0.
Proof.
  intros Hfree oA HA Hneg Hset oB HB oA'.
  destruct (rdb_IncrBy_inr _ _ _ _ _ HA) as (_ & _ & HrA & HeqA).
  assert (HfreeA : wsMutex (post oA) = false).
  { unfold oA. by rewrite HeqA. }
  destruct (updatePosition_incr_ok envB (post oA) reqB vB HfreeA HB)
    as (HresB & _ & _ & HmxB & _).
  fold oB in HresB, HmxB.
  destruct (updatePosition_rest_run vA envA (post oB) HmxB HrA) as (HresA & HrdbA).
  fold oA' in HresA, HrdbA.
  split; [exact HresB|]. split.
  - rewrite HresA. by replace (Z.max 0 vA) with 0 by lia.
  - unfold position. rewrite HrdbA, Hset.
    rewrite (proj2 (Z.ltb_lt vA 0) Hneg). cbn. by rewrite lookup_insert_eq.
Qed.

(** ** The client's scroll window *)

Ltac scroll_cases :=
  unfold scrolled, scrollTarget; cbn [scrollLeft trackOffsetWidth carOffsetWidth];
  repeat (match goal with
          | |- context [?a <? ?b] =>
              lazymatch a with
              | context [if _ then _ else _] => fail
              | _ => lazymatch b with
                     | context [if _ then _ else _] => fail
                     | _ => destruct (Z.ltb_spec a b)
                     end
              end
          end; cbn [andb]);
  try lia.

(** X23. After the effect ran, the car is inside the scroll window.  For a
    viewport at least three cars wide, scrolled to a position that is not
    negative, and a car at [0 ≤ position < finishLinePosition], the value
    the effect leaves in [scrollLeft] is not negative and the car, from
    [position] to [position + carOffsetWidth], lies within the window that
    starts there. *)
Theorem scroll_keeps_car_in_view position v :
  0 ≤ scrollLeft v →
  0 ≤ carOffsetWidth v →
  3 * carOffsetWidth v ≤ trackOffsetWidth v →
  0 ≤ position < finishLinePosition →
  let s := scrollTarget position v in
  0 ≤ s ∧ s ≤ position ∧ position + carOffsetWidth v ≤ s + trackOffsetWidth v.
Proof. intros Hs Hc Hw [Hp Hf] s. subst s. scroll_cases. Qed.

(** X24. The scroll adjustment settles in one step.  For a viewport at
    least three cars wide, running the effect again on the viewport it
    produced, with the same position, asks for the same [scrollLeft]. *)
Theorem scroll_settles position v :
  3 * carOffsetWidth v ≤ trackOffsetWidth v →
  scrollTarget position (scrolled position v) = scrollTarget position v.
Proof. intros Hw. scroll_cases. Qed.

(** ** Further theorems at concrete inputs *)

Lemma reachable_twoClients : reachable twoClients.
Proof.
  unfold twoClients, endState. cbn [foldl].
  apply reachable_step; [apply reachable_step; [apply reachable_init|]|];
    vm_compute; reflexivity.
Qed.

Lemma reachable_at50 : reachable at50.
Proof.
  unfold at50, endState. cbn [foldl].
  apply reachable_step; [apply reachable_twoClients|exact I].
Qed.


Lemma broadcast_unlocks_unless_blocked_witness :
  let o := broadcastPosition_full (onlyAt 2%positive Panics) 50 calm twoClients in
  wsMutex twoClients = false ∧
  rangeOrder calm (wsClients twoClients) = [] ++ 2%positive :: [1%positive] ∧
  onlyAt 2%positive Panics 2%positive = Panics ∧
  res o = Panic "concurrent write to websocket connection" ∧
  wsMutex (post o) = isParked (res o) ∧
  wsClients (post o) !! 1%positive = wsClients twoClients !! 1%positive.
Proof.
  intros o.
  assert (H1 : wsMutex twoClients = false) by (vm_compute; reflexivity).
  assert (H2 : rangeOrder calm (wsClients twoClients) = [] ++ 2%positive :: [1%positive])
    by (vm_compute; reflexivity).
  assert (H3 : onlyAt 2%positive Panics 2%positive = Panics) by reflexivity.
  assert (H5 : ∀ c, c ∈ @nil positive → onlyAt 2%positive Panics c = Returns)
    by (intros c Hc; by apply elem_of_nil in Hc).
  assert (H7 : 1%positive ∈ [2%positive; 1%positive]) by (right; left).
  destruct (broadcast_unlocks_unless_blocked (onlyAt 2%positive Panics) calm twoClients 50 H1)
    as (Hmx & _ & Hpanic).
  destruct (Hpanic [] 2%positive [1%positive] H2 H5 H3) as (Hres & _ & Hrest).
  split; [exact H1|]. split; [exact H2|]. split; [exact H3|].
  split; [exact Hres|]. split; [exact Hmx|].
  exact (proj2 (Hrest 1%positive H7)).
Defined.

Lemma no_write_after_removal_witness :
  let acts := [POST_position (Payload {| Delta := 10 |}) calm; GET_position calm] in
  wsMutex prunedOne = false ∧
  wsClients prunedOne !! 1%positive = None ∧
  Forall (λ a, introduces 1%positive a = false) acts ∧
  wsClients (endState acts prunedOne) !! 1%positive = None.
Proof.
  intros acts.
  assert (H1 : wsMutex prunedOne = false) by (vm_compute; reflexivity).
  assert (H2 : wsClients prunedOne !! 1%positive = None) by (vm_compute; reflexivity).
  assert (H3 : Forall (λ a, introduces 1%positive a = false) acts)
    by (repeat constructor).
  split; [exact H1|]. split; [exact H2|]. split; [exact H3|].
  exact (proj2 (no_write_after_removal 1%positive acts prunedOne H1 H2 H3)).
Defined.

Lemma registered_connections_are_open_witness :
  reachable twoClients ∧
  is_Some (wsClients twoClients !! 1%positive) ∧
  1%positive ∉ closed twoClients.
Proof.
  assert (H2 : is_Some (wsClients twoClients !! 1%positive))
    by (exists true; vm_compute; reflexivity).
  split; [exact reachable_twoClients|]. split; [exact H2|].
  exact (proj1 (registered_connections_are_open twoClients 1%positive
                  reachable_twoClients H2)).
Defined.

Lemma getPosition_answers_stored_position_witness :
  reachable at50 ∧
  getFault calm = None ∧
  res (getPosition calm at50) =
    Done {| status := StatusOK; body := Json {| Position := position at50 |} |}.
Proof.
  assert (H2 : getFault calm = None) by reflexivity.
  split; [exact reachable_at50|]. split; [exact H2|].
  exact (proj1 (getPosition_answers_stored_position at50 calm reachable_at50 H2)).
Defined.


Lemma wsHandler_registers_on_success_witness :
  let refused := Refused 400 "Bad Request"
                   (Err "websocket: the client is not using the websocket protocol") in
  wsMutex twoClients = false ∧
  res (wsHandler (inl refused) calm twoClients) =
    Done (Some {| status := 400;
                  body := ErrorText ("Bad Request" +:+ newline +:+
                    "websocket: the client is not using the websocket protocol") |}) ∧
  readLoop (post (wsHandler (inr 3%positive) calm twoClients)) !! 3%positive
    = Some Running.
Proof.
  intros refused.
  assert (H1 : wsMutex twoClients = false) by (vm_compute; reflexivity).
  split; [exact H1|]. split.
  - exact (proj1 (proj2 (wsHandler_registers_on_success (inl refused) calm twoClients H1))).
  - exact (proj2 (proj1 (proj2
      (wsHandler_registers_on_success (inr 3%positive) calm twoClients H1)))).
Defined.

Lemma handleWSRead_ignores_frames_witness :
  (1%positive ∉ closed twoClients) ∧
  (ReadError ∉ [Frame; Frame]) ∧
  handleWSRead 1%positive [Frame; Frame] calm twoClients =
  mkOut Parked twoClients [EvRead 1%positive Frame; EvRead 1%positive Frame].
Proof.
  assert (H1 : 1%positive ∉ closed twoClients).
  { apply (bool_decide_unpack _). vm_compute. exact I. }
  assert (H2 : ReadError ∉ [Frame; Frame]).
  { intros H. repeat (apply elem_of_cons in H as [H|H]; [discriminate H|]).
    by apply elem_of_nil in H. }
  split; [exact H1|]. split; [exact H2|].
  exact (handleWSRead_ignores_frames 1%positive [Frame; Frame] calm twoClients H1 H2).
Defined.

Lemma pruned_reader_terminates_witness :
  wsMutex twoClients = false ∧
  is_Some (wsClients twoClients !! 1%positive) ∧
  writeFails socket1Broken twoClients 1%positive = true ∧
  res (handleWSRead 1%positive [] calm prunedOne) = Done tt.
Proof.
  assert (H1 : wsMutex twoClients = false) by (vm_compute; reflexivity).
  assert (H2 : is_Some (wsClients twoClients !! 1%positive))
    by (exists true; vm_compute; reflexivity).
  assert (H3 : writeFails socket1Broken twoClients 1%positive = true)
    by (vm_compute; reflexivity).
  split; [exact H1|]. split; [exact H2|]. split; [exact H3|].
  exact (proj1 (pruned_reader_terminates 1%positive 50 socket1Broken twoClients
                  [] calm H1 H2 H3)).
Defined.



Lemma one_write_per_subscriber_witness :
  wsMutex twoClients = false ∧
  is_Some (wsClients twoClients !! 2%positive) ∧
  writesTo 2%positive (log (broadcastPosition_full allReturn 50 calm twoClients)) = 1%nat ∧
  (writesTo 1%positive
     (log (broadcastPosition_full (onlyAt 2%positive Blocks) 50 calm twoClients)) ≤ 1)%nat.
Proof.
  assert (H1 : wsMutex twoClients = false) by (vm_compute; reflexivity).
  assert (H2 : is_Some (wsClients twoClients !! 2%positive))
    by (exists true; vm_compute; reflexivity).
  assert (H4 : ∀ c, is_Some (wsClients twoClients !! c) → allReturn c = Returns)
    by (intros c _; reflexivity).
  split; [exact H1|]. split; [exact H2|]. split.
  - exact (proj2 (proj2 (one_write_per_subscriber allReturn calm twoClients 50
                           2%positive H1)) H4 H2).
  - exact (proj1 (one_write_per_subscriber (onlyAt 2%positive Blocks) calm twoClients 50
                    1%positive H1)).
Defined.


Lemma stopped_broadcast_leaves_partial_update_witness :
  let o := updatePosition_full (onlyAt 2%positive Panics)
             (Payload {| Delta := 50 |}) calm twoClients in
  wsMutex twoClients = false ∧
  res (rdb_IncrBy "carPosition" (int64_of_int 50) calm twoClients) = Done (inr 50) ∧
  rangeOrder calm (wsClients twoClients) = [] ++ 2%positive :: [1%positive] ∧
  rdb (post o) !! "carPosition" = Some 50 ∧
  res o = Panic "concurrent write to websocket connection".
Proof.
  intros o.
  assert (H1 : wsMutex twoClients = false) by (vm_compute; reflexivity).
  assert (H2 : res (rdb_IncrBy "carPosition" (int64_of_int (Delta {| Delta := 50 |}))
                               calm twoClients) = Done (inr 50))
    by (vm_compute; reflexivity).
  assert (H3 : rangeOrder calm (wsClients twoClients) = [] ++ 2%positive :: [1%positive])
    by (vm_compute; reflexivity).
  assert (H5 : ∀ c, c ∈ @nil positive → onlyAt 2%positive Panics c = Returns)
    by (intros c Hc; by apply elem_of_nil in Hc).
  destruct (stopped_broadcast_leaves_partial_update (onlyAt 2%positive Panics)
              calm twoClients {| Delta := 50 |} 50 H1 H2)
    as (Hstore & _ & _ & Hstop).
  split; [exact H1|]. split; [exact H2|]. split; [exact H3|].
  split; [exact Hstore|].
  exact (proj1 (proj2 (Hstop [] 2%positive [1%positive] H3 H5) eq_refl)).
Defined.


Lemma position_stays_nonnegative_witness :
  let acts := [POST_position (Payload {| Delta := -200 |}) calm;
               GET_position calm;
               POST_position (Payload {| Delta := 30 |}) socket1Broken] in
  wsMutex at50 = false ∧
  0 ≤ position at50 ∧
  existsb isFailedSet (events (outs acts at50)) = false ∧
  0 ≤ position (endState acts at50).
Proof.
  intros acts.
  assert (H1 : wsMutex at50 = false) by (vm_compute; reflexivity).
  assert (H2 : 0 ≤ position at50) by (vm_compute; intros H; discriminate H).
  assert (H3 : existsb isFailedSet (events (outs acts at50)) = false)
    by (vm_compute; reflexivity).
  split; [exact H1|]. split; [exact H2|]. split; [exact H3|].
  exact (position_stays_nonnegative acts at50 H1 H2 H3).
Defined.

Lemma unclamped_submissions_commute_witness :
  let subs := [(10, calm); (-5, calm)] in
  let subs' := [(-5, calm); (10, calm)] in
  wsMutex at50 = false ∧
  subs ≡ₚ subs' ∧
  Forall (λ s : Z * Env, in_int64 s.1) subs ∧
  forallb incrReturnedNonneg (events (outs (submit <$> subs) at50)) = true ∧
  forallb incrReturnedNonneg (events (outs (submit <$> subs') at50)) = true ∧
  position (endState (submit <$> subs) at50) =
  position (endState (submit <$> subs') at50).
Proof.
  intros subs subs'.
  assert (H1 : wsMutex at50 = false) by (vm_compute; reflexivity).
  assert (H2 : subs ≡ₚ subs') by apply perm_swap.
  assert (H3 : Forall (λ s : Z * Env, in_int64 s.1) subs).
  { repeat constructor; vm_compute; intros H; discriminate H. }
  assert (H4 : forallb incrReturnedNonneg (events (outs (submit <$> subs) at50)) = true)
    by (vm_compute; reflexivity).
  assert (H5 : forallb incrReturnedNonneg (events (outs (submit <$> subs') at50)) = true)
    by (vm_compute; reflexivity).
  split; [exact H1|]. split; [exact H2|]. split; [exact H3|].
  split; [exact H4|]. split; [exact H5|].
  exact (unclamped_submissions_commute subs subs' at50 H1 H2 H3 H4 H5).
Defined.

Lemma back_and_forth_witness :
  let acts := submit <$> [(- 80, calm); (80, calm)] in
  wsMutex at50 = false ∧
  0 ≤ 80 ∧
  in_int64 80 ∧
  forallb incrReturned (events (outs acts at50)) = true ∧
  existsb isFailedSet (events (outs acts at50)) = false ∧
  position (endState acts at50) = Z.max 0 (position at50 - 80) + 80.
Proof.
  intros acts.
  assert (H1 : wsMutex at50 = false) by (vm_compute; reflexivity).
  assert (H2 : 0 ≤ 80) by (intros H; discriminate H).
  assert (H3 : in_int64 80) by (split; [intros H; discriminate H|reflexivity]).
  assert (H4 : forallb incrReturned (events (outs acts at50)) = true)
    by (vm_compute; reflexivity).
  assert (H5 : existsb isFailedSet (events (outs acts at50)) = false)
    by (vm_compute; reflexivity).
  split; [exact H1|]. split; [exact H2|]. split; [exact H3|].
  split; [exact H4|]. split; [exact H5|].
  exact (back_and_forth 80 calm calm at50 H1 H2 H3 H4 H5).
Defined.

Lemma connect_then_disconnect_witness :
  let w1 := post (wsHandler (inr 3%positive) calm twoClients) in
  wsMutex twoClients = false ∧
  wsClients twoClients !! 3%positive = None ∧
  ReadError ∈ [Frame; ReadError] ∧
  wsClients (post (handleWSRead 3%positive [Frame; ReadError] calm w1))
  = wsClients twoClients.
Proof.
  intros w1.
  assert (H1 : wsMutex twoClients = false) by (vm_compute; reflexivity).
  assert (H2 : wsClients twoClients !! 3%positive = None) by (vm_compute; reflexivity).
  assert (H3 : ReadError ∈ [Frame; ReadError]) by (right; left).
  split; [exact H1|]. split; [exact H2|]. split; [exact H3|].
  exact (proj1 (proj2 (connect_then_disconnect 3%positive calm calm twoClients
                         [Frame; ReadError] H1 H2 H3))).
Defined.

Lemma concurrent_clamp_erases_increment_witness :
  let reqA := {| Delta := -5 |} in
  let reqB := {| Delta := 10 |} in
  let oA := rdb_IncrBy "carPosition" (int64_of_int (Delta reqA)) calm init in
  let oB := updatePosition (Payload reqB) calm (post oA) in
  wsMutex init = false ∧
  res oA = Done (inr (-5)) ∧
  -5 < 0 ∧
  setFault calm = None ∧
  res (rdb_IncrBy "carPosition" (int64_of_int (Delta reqB)) calm (post oA))
    = Done (inr 5) ∧
  res oB = Done {| status := StatusOK; body := Json {| Position := Z.max 0 5 |} |} ∧
  position (post (updatePosition_rest (-5) calm (post oB))) = 0.
Proof.
  intros reqA reqB oA oB.
  assert (H1 : wsMutex init = false) by reflexivity.
  assert (H2 : res oA = Done (inr (-5))) by (vm_compute; reflexivity).
  assert (H3 : -5 < 0) by reflexivity.
  assert (H4 : setFault calm = None) by reflexivity.
  assert (H5 : res (rdb_IncrBy "carPosition" (int64_of_int (Delta reqB)) calm (post oA))
               = Done (inr 5)) by (vm_compute; reflexivity).
  destruct (concurrent_clamp_erases_increment reqA reqB calm calm init (-5) 5
              H1 H2 H3 H4 H5) as (HB & _ & Hend).
  split; [exact H1|]. split; [exact H2|]. split; [exact H3|]. split; [exact H4|].
  split; [exact H5|]. split; [exact HB|exact Hend].
Defined.

Lemma scroll_keeps_car_in_view_witness :
  let v := mkViewport 0 800 70 in
  0 ≤ scrollLeft v ∧
  0 ≤ carOffsetWidth v ∧
  3 * carOffsetWidth v ≤ trackOffsetWidth v ∧
  0 ≤ 1000 < finishLinePosition ∧
  0 ≤ scrollTarget 1000 v ∧
  scrollTarget 1000 v ≤ 1000 ∧
  1000 + carOffsetWidth v ≤ scrollTarget 1000 v + trackOffsetWidth v.
Proof.
  intros v.
  assert (H1 : 0 ≤ scrollLeft v) by (intros H; discriminate H).
  assert (H2 : 0 ≤ carOffsetWidth v) by (intros H; discriminate H).
  assert (H3 : 3 * carOffsetWidth v ≤ trackOffsetWidth v) by (intros H; discriminate H).
  assert (H4 : 0 ≤ 1000 < finishLinePosition)
    by (split; [intros H; discriminate H|reflexivity]).
  split; [exact H1|]. split; [exact H2|]. split; [exact H3|]. split; [exact H4|].
  exact (scroll_keeps_car_in_view 1000 v H1 H2 H3 H4).
Defined.

Lemma scroll_settles_witness :
  let v := mkViewport 0 800 70 in
  3 * carOffsetWidth v ≤ trackOffsetWidth v ∧
  scrollTarget 1000 (scrolled 1000 v) = scrollTarget 1000 v.
Proof.
  intros v.
  assert (H1 : 3 * carOffsetWidth v ≤ trackOffsetWidth v) by (intros H; discriminate H).
  split; [exact H1|exact (scroll_settles 1000 v H1)].
Defined.
